(** * A byte-level shallow embedding of memory_allocator.h

    The allocator of memory_allocator.h works by pointer arithmetic over raw
    regions, so the model keeps memory as bytes: a memory is a total map from
    addresses to bytes, multi-byte fields are read and written little-endian,
    and the structs have the field offsets of the LP64 (x86-64 System V) ABI
    that the Makefile's g++ build targets:

      Arena::BlockHeader  { uint32_t magic @0; size_t totalSize @8;
                            size_t userSize @16; bool isFree @24 }   size 32
      Arena::BlockFooter  { uint32_t magic @0; size_t totalSize @8;
                            bool isFree @16 }                        size 24
      Arena::FreeBlock    { BlockHeader hdr @0; FreeBlock* next @32 } size 40
      SmallBlockHeader    { size_t binIndex @0; size_t userSize @8 } size 16
      SmallFreeBlock      { SmallBlockHeader hdr @0; next @16 }      size 24

    size_t values are integers modulo 2^64; [::operator new] is a bump
    allocator handing out fresh, 16-aligned regions (the platform
    collaborator); the program runs on one thread, so each compare-and-swap
    loop on the peak gauge succeeds at its first try. *)

From Stdlib Require Import ZArith Bool List Lia Permutation.
Import ListNotations.
Open Scope Z_scope.

(** ** Bytes, words and memory *)

Definition mem := Z -> Z.

Definition W64 : Z := 2 ^ 64.
Definition wrap64 (x : Z) : Z := x mod W64.

(** [store m a n v]: write the low [n] bytes of [v] at [a], little-endian. *)
Definition store (m : mem) (a n v : Z) : mem :=
  fun x => if (a <=? x) && (x <? a + n)
           then Z.land (Z.shiftr v (8 * (x - a))) 255
           else m x.

Fixpoint load_bytes (m : mem) (a : Z) (n : nat) : Z :=
  match n with
  | O => 0
  | S k => m a + 256 * load_bytes m (a + 1) k
  end.

(** [load m a n]: the [n]-byte little-endian word at [a]. *)
Definition load (m : mem) (a n : Z) : Z := load_bytes m a (Z.to_nat n).

(** [memset(p, 0, n)] *)
Definition memset0 (m : mem) (a n : Z) : mem := store m a n 0.

Definition zero_mem : mem := fun _ => 0.

(** ** Layout constants (LP64) *)

Definition MAGIC : Z := 3405691582.   (* 0xCAFEBABE *)

Definition HDR_MAGIC := 0.
Definition HDR_TOTAL := 8.
Definition HDR_USER := 16.
Definition HDR_FREE := 24.
Definition SIZEOF_HDR := 32.

Definition FTR_MAGIC := 0.
Definition FTR_TOTAL := 8.
Definition FTR_FREE := 16.
Definition SIZEOF_FTR := 24.

Definition FB_NEXT := 32.
Definition SIZEOF_FREEBLOCK := 40.

Definition SB_BIN := 0.
Definition SB_USER := 8.
Definition SIZEOF_SMALLHDR := 16.
Definition SFB_NEXT := 16.

(** [alignof(std::max_align_t)] *)
Definition MAX_ALIGN := 16.

Definition SMALL_BIN_COUNT : Z := 4.
Definition SMALL_BIN_SIZE (i : Z) : Z :=
  if i =? 0 then 32 else if i =? 1 then 64 else if i =? 2 then 128 else 256.

(** ** Statistics *)

Record AllocStats := mkStats {
  totalAllocCalls : Z;
  totalFreeCalls : Z;
  currentUsedBytes : Z;
  peakUsedBytes : Z
}.

Definition stats0 : AllocStats := mkStats 0 0 0 0.

Definition addAllocCall (s : AllocStats) : AllocStats :=
  mkStats (wrap64 (totalAllocCalls s + 1)) (totalFreeCalls s)
          (currentUsedBytes s) (peakUsedBytes s).

Definition addFreeCall (s : AllocStats) : AllocStats :=
  mkStats (totalAllocCalls s) (wrap64 (totalFreeCalls s + 1))
          (currentUsedBytes s) (peakUsedBytes s).

(** [currentUsedBytes.fetch_add(n)] *)
Definition addCurrent (s : AllocStats) (n : Z) : AllocStats :=
  mkStats (totalAllocCalls s) (totalFreeCalls s)
          (wrap64 (currentUsedBytes s + n)) (peakUsedBytes s).

(** [currentUsedBytes.fetch_sub(n)] *)
Definition subCurrent (s : AllocStats) (n : Z) : AllocStats :=
  mkStats (totalAllocCalls s) (totalFreeCalls s)
          (wrap64 (currentUsedBytes s - n)) (peakUsedBytes s).

(** [c = current.load(); p = peak.load(); while (c > p) if (CAS(p, c)) break;]
    on one thread: the first compare-and-swap succeeds. *)
Definition updatePeak (s : AllocStats) : AllocStats :=
  let c := currentUsedBytes s in
  let p := peakUsedBytes s in
  if c >? p
  then mkStats (totalAllocCalls s) (totalFreeCalls s) c c
  else s.

(** ** std::align (libstdc++) *)

Definition std_align (align size ptr space : Z) : option (Z * Z) :=
  if space <? size then None
  else
    let aligned := Z.land (ptr - 1 + align) (- align) in
    let diff := aligned - ptr in
    if diff >? space - size then None
    else Some (aligned, space - diff).

(** ** The platform allocator [::operator new]

    A bump pointer over fresh memory, rounded to 16-byte alignment; the
    regions it returns never overlap. *)

Definition round16 (n : Z) : Z := ((n + 15) / 16) * 16.

Definition operator_new (brk n : Z) : Z * Z := (brk, brk + round16 n).

(** ** Arena *)

Record Arena := mkArena {
  memory_ : Z;
  arenaSize_ : Z;
  usedBytes_ : Z;
  firstFree_ : Z
}.

(** The state an arena method runs in: the memory, the arena object and the
    statistics record passed by reference. *)
Record AS := mkAS {
  as_mem : mem;
  as_ar : Arena;
  as_stats : AllocStats
}.

(** An arena method is a state transformer that can fail: [None] stands for
    an access outside the arena's region (undefined behaviour) or a free-list
    walk that does not terminate within the fuel. *)
Definition AM (A : Type) := AS -> option (A * AS).

Definition ret {A} (a : A) : AM A := fun s => Some (a, s).
Definition bind {A B} (m : AM A) (k : A -> AM B) : AM B :=
  fun s => match m s with Some (a, s') => k a s' | None => None end.
Definition fail {A} : AM A := fun _ => None.

Notation "x <- m ;; k" := (bind m (fun x => k))
  (at level 61, m at next level, right associativity).
Notation "m ;;; k" := (bind m (fun _ => k))
  (at level 61, right associativity).

Definition in_region (ar : Arena) (a n : Z) : bool :=
  (memory_ ar <=? a) && (a + n <=? memory_ ar + arenaSize_ ar).

(** Reads and writes of the arena code stay inside [memory_, memory_+arenaSize_). *)
Definition rd (a n : Z) : AM Z :=
  fun s => if in_region (as_ar s) a n then Some (load (as_mem s) a n, s) else None.

Definition wr (a n v : Z) : AM unit :=
  fun s => if in_region (as_ar s) a n
           then Some (tt, mkAS (store (as_mem s) a n v) (as_ar s) (as_stats s))
           else None.

Definition rd_bool (a : Z) : AM bool := v <- rd a 1 ;; ret (negb (v =? 0)).
Definition wr_bool (a : Z) (b : bool) : AM unit := wr a 1 (if b then 1 else 0).

Definition get_ar : AM Arena := fun s => Some (as_ar s, s).
Definition modify_ar (f : Arena -> Arena) : AM unit :=
  fun s => Some (tt, mkAS (as_mem s) (f (as_ar s)) (as_stats s)).
Definition modify_stats (f : AllocStats -> AllocStats) : AM unit :=
  fun s => Some (tt, mkAS (as_mem s) (as_ar s) (f (as_stats s))).

Definition getFirstFree : AM Z := ar <- get_ar ;; ret (firstFree_ ar).
Definition setFirstFree (p : Z) : AM unit :=
  modify_ar (fun ar => mkArena (memory_ ar) (arenaSize_ ar) (usedBytes_ ar) p).
Definition addUsed (n : Z) : AM unit :=
  modify_ar (fun ar => mkArena (memory_ ar) (arenaSize_ ar)
                                (wrap64 (usedBytes_ ar + n)) (firstFree_ ar)).
Definition subUsed (n : Z) : AM unit :=
  modify_ar (fun ar => mkArena (memory_ ar) (arenaSize_ ar)
                                (wrap64 (usedBytes_ ar - n)) (firstFree_ ar)).

(** [getFooter(hdr)]: [hdr + hdr->totalSize - sizeof(BlockFooter)]. *)
Definition getFooter (hdr : Z) : AM Z :=
  ts <- rd (hdr + HDR_TOTAL) 8 ;; ret (hdr + ts - SIZEOF_FTR).

Definition fuel_of (ar : Arena) : nat := Z.to_nat (arenaSize_ ar).

(** [Arena::Arena(arenaSize)]: the region comes from [::operator new] and is
    zeroed; one free block spans it. Returns the arena and the new break. *)
Definition Arena_new (m : mem) (brk arenaSize : Z) : mem * Arena * Z :=
  let '(base, brk') := operator_new brk arenaSize in
  let m1 := memset0 m base arenaSize in
  let m2 := store m1 (base + HDR_MAGIC) 4 MAGIC in
  let m3 := store m2 (base + HDR_TOTAL) 8 arenaSize in
  let m4 := store m3 (base + HDR_USER) 8 0 in
  let m5 := store m4 (base + HDR_FREE) 1 1 in
  let m6 := store m5 (base + FB_NEXT) 8 0 in
  let foot := base + load m6 (base + HDR_TOTAL) 8 - SIZEOF_FTR in
  let m7 := store m6 (foot + FTR_MAGIC) 4 MAGIC in
  let m8 := store m7 (foot + FTR_TOTAL) 8 arenaSize in
  let m9 := store m8 (foot + FTR_FREE) 1 1 in
  (m9, mkArena base arenaSize 0 base, brk').

(** The success branch of [Arena::allocate] once block [cur] (with
    predecessor [prev]) has passed both checks. *)
Definition alloc_take (prev cur reqSize padding : Z) : AM (option Z) :=
  let overhead := SIZEOF_HDR + SIZEOF_FTR in
  let start := cur in
  let needed := wrap64 (overhead + padding + reqSize) in
  nxt <- rd (cur + FB_NEXT) 8 ;;
  (if prev =? 0 then setFirstFree nxt else wr (prev + FB_NEXT) 8 nxt) ;;;
  ts <- rd (cur + HDR_TOTAL) 8 ;;
  let leftover := wrap64 (ts - needed) in
  let canSplit := leftover >=? SIZEOF_FREEBLOCK + overhead in
  needed <- (if canSplit then
      let l := start + needed in
      wr (l + HDR_MAGIC) 4 MAGIC ;;;
      wr (l + HDR_TOTAL) 8 leftover ;;;
      wr (l + HDR_USER) 8 0 ;;;
      wr_bool (l + HDR_FREE) true ;;;
      ff <- getFirstFree ;;
      wr (l + FB_NEXT) 8 ff ;;;
      setFirstFree l ;;;
      lf <- getFooter l ;;
      wr (lf + FTR_MAGIC) 4 MAGIC ;;;
      wr (lf + FTR_TOTAL) 8 leftover ;;;
      wr_bool (lf + FTR_FREE) true ;;;
      ret needed
    else rd (cur + HDR_TOTAL) 8) ;;
  wr_bool (cur + HDR_FREE) false ;;;
  wr (cur + HDR_USER) 8 reqSize ;;;
  wr (cur + HDR_TOTAL) 8 needed ;;;
  foot <- getFooter cur ;;
  wr (foot + FTR_MAGIC) 4 MAGIC ;;;
  wr (foot + FTR_TOTAL) 8 needed ;;;
  wr_bool (foot + FTR_FREE) false ;;;
  addUsed needed ;;;
  modify_stats (fun st => updatePeak (addCurrent st needed)) ;;;
  ret (Some (start + SIZEOF_HDR + padding)).

(** The first-fit [while(cur)] loop of [Arena::allocate]. *)
Fixpoint alloc_loop (fuel : nat) (prev cur reqSize alignment : Z) : AM (option Z) :=
  match fuel with
  | O => fail
  | S fuel' =>
    if cur =? 0 then ret None
    else
      let overhead := SIZEOF_HDR + SIZEOF_FTR in
      isFree <- rd_bool (cur + HDR_FREE) ;;
      ts <- (if isFree then rd (cur + HDR_TOTAL) 8 else ret 0) ;;
      let try_next := (nxt <- rd (cur + FB_NEXT) 8 ;;
                       alloc_loop fuel' cur nxt reqSize alignment) in
      if isFree && (ts >=? wrap64 (reqSize + overhead)) then
        let userArea := cur + SIZEOF_HDR in
        let space := wrap64 (ts - overhead) in
        match std_align alignment reqSize userArea space with
        | Some (alignedPtr, _) =>
          let padding := alignedPtr - userArea in
          let needed := wrap64 (overhead + padding + reqSize) in
          if ts >=? needed then alloc_take prev cur reqSize padding
          else try_next
        | None => try_next
        end
      else try_next
  end.

(** [Arena::allocate(reqSize, alignment, stats)] *)
Definition Arena_allocate (reqSize alignment : Z) : AM (option Z) :=
  modify_stats addAllocCall ;;;
  ar <- get_ar ;;
  alloc_loop (fuel_of ar) 0 (firstFree_ ar) reqSize alignment.

(** [Arena::removeFreeBlock(h)] *)
Fixpoint remove_loop (fuel : nat) (prev cur h : Z) : AM unit :=
  match fuel with
  | O => fail
  | S fuel' =>
    if cur =? 0 then ret tt
    else if cur =? h then
      nxt <- rd (cur + FB_NEXT) 8 ;;
      (if prev =? 0 then setFirstFree nxt else wr (prev + FB_NEXT) 8 nxt) ;;;
      wr (cur + FB_NEXT) 8 0
    else
      nxt <- rd (cur + FB_NEXT) 8 ;;
      remove_loop fuel' cur nxt h
  end.

Definition removeFreeBlock (h : Z) : AM unit :=
  ar <- get_ar ;; remove_loop (fuel_of ar) 0 (firstFree_ ar) h.

(** The probe of [coalesceForward]: the address of the next block when it
    lies inside the region, carries [MAGIC] and is free. *)
Definition fwdProbe (blk : Z) : AM (option Z) :=
  ts <- rd (blk + HDR_TOTAL) 8 ;;
  let nxtAddr := blk + ts in
  ar <- get_ar ;;
  if nxtAddr >=? memory_ ar + arenaSize_ ar then ret None
  else
    mg <- rd (nxtAddr + HDR_MAGIC) 4 ;;
    if mg =? MAGIC then
      fr <- rd_bool (nxtAddr + HDR_FREE) ;;
      ret (if fr then Some nxtAddr else None)
    else ret None.

(** [Arena::coalesceForward(blk)] *)
Definition coalesceForward (blk : Z) : AM unit :=
  pr <- fwdProbe blk ;;
  match pr with
  | None => ret tt
  | Some nxtHdr =>
    removeFreeBlock nxtHdr ;;;
    a <- rd (blk + HDR_TOTAL) 8 ;;
    b <- rd (nxtHdr + HDR_TOTAL) 8 ;;
    wr (blk + HDR_TOTAL) 8 (wrap64 (a + b)) ;;;
    foot <- getFooter blk ;;
    t <- rd (blk + HDR_TOTAL) 8 ;;
    wr (foot + FTR_MAGIC) 4 MAGIC ;;;
    wr (foot + FTR_TOTAL) 8 t ;;;
    wr_bool (foot + FTR_FREE) true
  end.

(** The probe of [coalesceBackward]: the previous block's address when the
    footer just below [blk] and the header it points to both carry [MAGIC]
    and are free. *)
Definition bwdProbe (blk : Z) : AM (option Z) :=
  ar <- get_ar ;;
  if blk =? memory_ ar then ret None
  else
    let footAddr := blk - SIZEOF_FTR in
    if footAddr <? memory_ ar then ret None
    else
      fmg <- rd (footAddr + FTR_MAGIC) 4 ;;
      if fmg =? MAGIC then
        ffr <- rd_bool (footAddr + FTR_FREE) ;;
        if ffr then
          prevSz <- rd (footAddr + FTR_TOTAL) 8 ;;
          let prevAddr := blk - prevSz in
          pmg <- rd (prevAddr + HDR_MAGIC) 4 ;;
          if pmg =? MAGIC then
            pfr <- rd_bool (prevAddr + HDR_FREE) ;;
            ret (if pfr then Some prevAddr else None)
          else ret None
        else ret None
      else ret None.

(** [Arena::coalesceBackward(blk)] *)
Definition coalesceBackward (blk : Z) : AM unit :=
  pr <- bwdProbe blk ;;
  match pr with
  | None => ret tt
  | Some prevHdr =>
    removeFreeBlock blk ;;;
    removeFreeBlock prevHdr ;;;
    a <- rd (prevHdr + HDR_TOTAL) 8 ;;
    b <- rd (blk + HDR_TOTAL) 8 ;;
    wr (prevHdr + HDR_TOTAL) 8 (wrap64 (a + b)) ;;;
    newFoot <- getFooter prevHdr ;;
    t <- rd (prevHdr + HDR_TOTAL) 8 ;;
    wr (newFoot + FTR_MAGIC) 4 MAGIC ;;;
    wr (newFoot + FTR_TOTAL) 8 t ;;;
    wr_bool (newFoot + FTR_FREE) true ;;;
    ff <- getFirstFree ;;
    wr (prevHdr + FB_NEXT) 8 ff ;;;
    setFirstFree prevHdr
  end.

(** [Arena::deallocate(userPtr, stats)] *)
Definition Arena_deallocate (userPtr : Z) : AM unit :=
  if userPtr =? 0 then ret tt
  else
    modify_stats addFreeCall ;;;
    let start := userPtr - SIZEOF_HDR in
    mg <- rd (start + HDR_MAGIC) 4 ;;
    fr <- (if mg =? MAGIC then rd_bool (start + HDR_FREE) else ret false) ;;
    if negb (mg =? MAGIC) || fr then ret tt
    else
      wr_bool (start + HDR_FREE) true ;;;
      sz <- rd (start + HDR_TOTAL) 8 ;;
      subUsed sz ;;;
      modify_stats (fun st => subCurrent st sz) ;;;
      ff <- getFirstFree ;;
      wr (start + FB_NEXT) 8 ff ;;;
      setFirstFree start ;;;
      coalesceForward start ;;;
      coalesceBackward start.

(** ** Thread-local small-block cache *)

(** The cache's state: the memory, the platform's break, the four bin heads
    [freeList_[0..3]] (0 is [nullptr]) and the statistics. *)
Record SS := mkSS {
  ss_mem : mem;
  ss_brk : Z;
  ss_heads : list Z;
  ss_stats : AllocStats
}.

Fixpoint list_set (l : list Z) (i : nat) (v : Z) : list Z :=
  match l, i with
  | [], _ => []
  | _ :: t, O => v :: t
  | h :: t, S i' => h :: list_set t i' v
  end.

Definition head_of (heads : list Z) (bin : Z) : Z := nth (Z.to_nat bin) heads 0.
Definition set_head (heads : list Z) (bin v : Z) : list Z :=
  list_set heads (Z.to_nat bin) v.

(** [ThreadLocalSmallCache::findBin] *)
Definition findBin (size : Z) : Z :=
  if size <=? SMALL_BIN_SIZE 0 then 0
  else if size <=? SMALL_BIN_SIZE 1 then 1
  else if size <=? SMALL_BIN_SIZE 2 then 2
  else if size <=? SMALL_BIN_SIZE 3 then 3
  else -1.

(** [(int)x] for a [size_t] [x]: the low 32 bits, read as signed. *)
Definition to_int32 (x : Z) : Z :=
  let v := x mod 2 ^ 32 in if v >=? 2 ^ 31 then v - 2 ^ 32 else v.

(** [ThreadLocalSmallCache::allocateSmall(reqSize, stats)]; 0 is [nullptr]. *)
Definition allocateSmall (reqSize : Z) (s : SS) : Z * SS :=
  let bin := findBin reqSize in
  if bin <? 0 then (0, s)
  else
    let head := head_of (ss_heads s) bin in
    if negb (head =? 0) then
      let blk := head in
      let heads' := set_head (ss_heads s) bin (load (ss_mem s) (blk + SFB_NEXT) 8) in
      let m' := store (ss_mem s) (blk + SB_USER) 8 reqSize in
      (blk + SIZEOF_SMALLHDR, mkSS m' (ss_brk s) heads' (ss_stats s))
    else
      let totalSz := SIZEOF_SMALLHDR + SMALL_BIN_SIZE bin in
      let '(block, brk') := operator_new (ss_brk s) totalSz in
      let m1 := memset0 (ss_mem s) block totalSz in
      let m2 := store m1 (block + SB_BIN) 8 bin in
      let m3 := store m2 (block + SB_USER) 8 reqSize in
      let st := updatePeak (addCurrent (addAllocCall (ss_stats s)) totalSz) in
      (block + SIZEOF_SMALLHDR, mkSS m3 brk' (ss_heads s) st).

(** [ThreadLocalSmallCache::freeSmall(userPtr, stats)] *)
Definition freeSmall (userPtr : Z) (s : SS) : SS :=
  if userPtr =? 0 then s
  else
    let blockStart := userPtr - SIZEOF_SMALLHDR in
    let bin := to_int32 (load (ss_mem s) (blockStart + SB_BIN) 8) in
    if (bin <? 0) || (bin >=? SMALL_BIN_COUNT) then s
    else
      let totalSz := SIZEOF_SMALLHDR + SMALL_BIN_SIZE bin in
      let st := subCurrent (addFreeCall (ss_stats s)) totalSz in
      let m' := store (ss_mem s) (blockStart + SFB_NEXT) 8 (head_of (ss_heads s) bin) in
      mkSS m' (ss_brk s) (set_head (ss_heads s) bin blockStart) st.

(** ** FancyPerThreadAllocator, seen from one thread *)

Record TLD := mkTLD {
  tld_arena : Arena;
  tld_heads : list Z
}.

Record FPTA := mkFPTA {
  f_mem : mem;
  f_brk : Z;
  f_tld : option TLD;
  f_stats : AllocStats;
  defaultArenaSize_ : Z
}.

(** [getThreadData()]: bind a fresh arena and an empty cache on first use. *)
Definition getThreadData (s : FPTA) : TLD * FPTA :=
  match f_tld s with
  | Some t => (t, s)
  | None =>
    let '(m', a, brk') := Arena_new (f_mem s) (f_brk s) (defaultArenaSize_ s) in
    let t := mkTLD a [0; 0; 0; 0] in
    (t, mkFPTA m' brk' (Some t) (f_stats s) (defaultArenaSize_ s))
  end.

Definition run_small {A} (f : SS -> A * SS) (t : TLD) (s : FPTA) : A * FPTA :=
  let '(r, ss') := f (mkSS (f_mem s) (f_brk s) (tld_heads t) (f_stats s)) in
  (r, mkFPTA (ss_mem ss') (ss_brk ss') (Some (mkTLD (tld_arena t) (ss_heads ss')))
             (ss_stats ss') (defaultArenaSize_ s)).

Definition run_arena {A} (f : AM A) (t : TLD) (s : FPTA) : option (A * FPTA) :=
  match f (mkAS (f_mem s) (tld_arena t) (f_stats s)) with
  | Some (r, a') =>
    Some (r, mkFPTA (as_mem a') (f_brk s) (Some (mkTLD (as_ar a') (tld_heads t)))
                    (as_stats a') (defaultArenaSize_ s))
  | None => None
  end.

(** [FancyPerThreadAllocator::allocate(size)]; 0 is [nullptr]. *)
Definition allocate (size : Z) (s : FPTA) : option (Z * FPTA) :=
  let size := if size =? 0 then 1 else size in
  let '(t, s1) := getThreadData s in
  if size <=? 256 then Some (run_small (allocateSmall size) t s1)
  else
    match run_arena (Arena_allocate size MAX_ALIGN) t s1 with
    | Some (Some p, s2) => Some (p, s2)
    | Some (None, s2) => Some (0, s2)
    | None => None
    end.

(** The dispatcher's marker test: the 4 bytes just below [ptr] read as a
    uint32_t and compared with [Arena::MAGIC]. *)
Definition marker_is_arena (m : mem) (ptr : Z) : bool := load m (ptr - 4) 4 =? MAGIC.

(** [FancyPerThreadAllocator::deallocate(ptr)] *)
Definition deallocate (ptr : Z) (s : FPTA) : option FPTA :=
  if ptr =? 0 then Some s
  else
    let isArena := marker_is_arena (f_mem s) ptr in
    let '(t, s1) := getThreadData s in
    if isArena then
      match run_arena (Arena_deallocate ptr) t s1 with
      | Some (_, s2) => Some s2
      | None => None
      end
    else Some (snd (run_small (fun ss => (tt, freeSmall ptr ss)) t s1)).

Definition FPTA_new (defaultArenaSize : Z) : FPTA :=
  mkFPTA zero_mem 4096 None stats0 defaultArenaSize.

(** ** Operation sequences *)

Inductive op := OAlloc (size : Z) (slot : nat) | OFree (slot : nat).

(** Run a program whose allocations store their pointer in a numbered slot
    and whose frees free the pointer of a slot. *)
Fixpoint run (ops : list op) (slots : list Z) (s : FPTA) : option (list Z * FPTA) :=
  match ops with
  | [] => Some (slots, s)
  | OAlloc n k :: rest =>
    match allocate n s with
    | Some (p, s') => run rest (list_set slots k p) s'
    | None => None
    end
  | OFree k :: rest =>
    match deallocate (nth k slots 0) s with
    | Some s' => run rest slots s'
    | None => None
    end
  end.

(** ** Observing an arena *)

(** A freshly constructed arena of [size] bytes, as the state of its methods. *)
Definition arena_state (size : Z) : AS :=
  let '(m, a, _) := Arena_new zero_mem 4096 size in mkAS m a stats0.

(** Walk the blocks of the region from its base, following header sizes:
    each block as (address, header isFree, footer isFree). *)
Fixpoint walk (fuel : nat) (m : mem) (a stop : Z) : list (Z * bool * bool) :=
  match fuel with
  | O => []
  | S f =>
    if a <? stop then
      let ts := load m (a + HDR_TOTAL) 8 in
      let foot := a + ts - SIZEOF_FTR in
      (a, negb (load m (a + HDR_FREE) 1 =? 0), negb (load m (foot + FTR_FREE) 1 =? 0))
        :: (if ts <=? 0 then [] else walk f m (a + ts) stop)
    else []
  end.

Definition blocks (s : AS) : list (Z * bool * bool) :=
  walk (fuel_of (as_ar s)) (as_mem s) (memory_ (as_ar s))
       (memory_ (as_ar s) + arenaSize_ (as_ar s)).

Fixpoint no_adjacent_free_list (l : list (Z * bool * bool)) : bool :=
  match l with
  | (_, f1, _) :: (((_, f2, _) :: _) as rest) =>
    negb (f1 && f2) && no_adjacent_free_list rest
  | _ => true
  end.

(** "No two adjacent blocks of the arena are both free" (header flags). *)
Definition no_adjacent_free (s : AS) : bool := no_adjacent_free_list (blocks s).

(** Run a list of arena methods from a state, keeping the last result. *)
Definition exec {A} (m : AM A) (s : AS) : option AS :=
  match m s with Some (_, s') => Some s' | None => None end.

(** ** Scenarios *)

Definition arena8k : AS := arena_state 8192.

(** Allocate three 264-byte blocks (no padding: 56 + 264 = 320 keeps every
    block 16-aligned), then free the first and the second. *)
Definition scen_two_frees : AM (Z * Z) :=
  pa <- Arena_allocate 264 MAX_ALIGN ;;
  pb <- Arena_allocate 264 MAX_ALIGN ;;
  _ <- Arena_allocate 264 MAX_ALIGN ;;
  match pa, pb with
  | Some a, Some b => Arena_deallocate a ;;; Arena_deallocate b ;;; ret (a, b)
  | _, _ => fail
  end.

(** Allocate two 264-byte blocks, then free the first. *)
Definition scen_one_free : AM Z :=
  pa <- Arena_allocate 264 MAX_ALIGN ;;
  _ <- Arena_allocate 264 MAX_ALIGN ;;
  match pa with
  | Some a => Arena_deallocate a ;;; ret a
  | None => fail
  end.

(** Allocate 257 bytes (the next block then starts at base + 313, so the
    following allocation needs 7 bytes of padding), allocate 264 bytes and
    free the second pointer. *)
Definition scen_padded : AM Z :=
  _ <- Arena_allocate 257 MAX_ALIGN ;;
  pb <- Arena_allocate 264 MAX_ALIGN ;;
  match pb with
  | Some b => Arena_deallocate b ;;; ret b
  | None => fail
  end.

(** Allocate 264 bytes, free the pointer once. *)
Definition scen_alloc_free : AM Z :=
  pa <- Arena_allocate 264 MAX_ALIGN ;;
  match pa with
  | Some a => Arena_deallocate a ;;; ret a
  | None => fail
  end.

(** ** Small-cache runs

    The ghost list [cs] records each chunk the cache has obtained from the
    platform, as (header address, bin index it was created for). A step is
    an [allocateSmall] of any size or a [freeSmall] of a payload pointer of
    a recorded chunk. An allocation step assumes that the platform's next
    region (at most 16 + 256 = 272 bytes) still fits the 64-bit address
    space; past that point [::operator new] would throw. *)

Definition chunk_size (bin : Z) : Z := SIZEOF_SMALLHDR + SMALL_BIN_SIZE bin.

Definition alloc_ghost (n : Z) (s : SS) (cs : list (Z * Z)) : list (Z * Z) :=
  let bin := findBin n in
  if bin <? 0 then cs
  else if negb (head_of (ss_heads s) bin =? 0) then cs
  else (ss_brk s, bin) :: cs.

Inductive small_step : SS -> list (Z * Z) -> SS -> list (Z * Z) -> Prop :=
| step_alloc n s cs :
    ss_brk s + 272 <= W64 ->
    small_step s cs (snd (allocateSmall n s)) (alloc_ghost n s cs)
| step_free h b s cs :
    In (h, b) cs -> small_step s cs (freeSmall (h + SIZEOF_SMALLHDR) s) cs.

Inductive small_reach (init : SS) : SS -> list (Z * Z) -> Prop :=
| reach_init : small_reach init init []
| reach_step s cs s' cs' :
    small_reach init s cs -> small_step s cs s' cs' -> small_reach init s' cs'.

(** ** Arena lifetime and the GlobalArenaManager

    [::operator delete] is observed through the list of regions it has been
    handed, in call order. *)

(** [Arena::usedBytes()] and [Arena::fullyFree()] *)
Definition usedBytes (ar : Arena) : Z := usedBytes_ ar.
Definition fullyFree (ar : Arena) : bool := usedBytes_ ar =? 0.

(** [Arena::destroy()]: release the region once and null [memory_]. *)
Definition destroy (ar : Arena) (released : list Z) : Arena * list Z :=
  if negb (memory_ ar =? 0)
  then (mkArena 0 (arenaSize_ ar) (usedBytes_ ar) (firstFree_ ar), released ++ [memory_ ar])
  else (ar, released).

(** [Arena::~Arena()] *)
Definition Arena_dtor (ar : Arena) (released : list Z) : list Z :=
  if negb (memory_ ar =? 0) then released ++ [memory_ ar] else released.

(** [ar->destroy(); delete ar;] *)
Definition destroy_delete (ar : Arena) (released : list Z) : list Z :=
  let '(ar', released') := destroy ar released in Arena_dtor ar' released'.

(** [std::vector::erase(begin() + i)] *)
Fixpoint erase_at {A} (i : nat) (l : list A) : list A :=
  match l, i with
  | [], _ => []
  | _ :: t, O => t
  | h :: t, S i' => h :: erase_at i' t
  end.

(** The reclamation [for] loop of [GlobalArenaManager::bgLoop]: each
    iteration either erases [arenas_[i]] or advances [i], so [size()]
    iterations of fuel suffice. [coalesceAll()] only takes and drops the
    arena's lock. *)
Fixpoint reclaim_loop (fuel i : nat) (arenas : list Arena) (released : list Z)
  : list Arena * list Z :=
  match fuel with
  | O => (arenas, released)
  | S fuel' =>
    if (i <? length arenas)%nat then
      match nth_error arenas i with
      | Some ar =>
        if fullyFree ar
        then reclaim_loop fuel' i (erase_at i arenas) (destroy_delete ar released)
        else reclaim_loop fuel' (S i) arenas released
      | None => (arenas, released)
      end
    else (arenas, released)
  end.

Definition reclaim_pass (arenas : list Arena) (released : list Z) : list Arena * list Z :=
  reclaim_loop (length arenas) 0 arenas released.

Record Mgr := mkMgr {
  arenas_ : list Arena;
  released_ : list Z;
  stopThread_ : bool;
  enableReclamation_ : bool
}.

(** One wake-up of [bgLoop] (under [mgrMutex_]): [None] when it breaks out. *)
Definition bgLoop_iter (g : Mgr) : option Mgr :=
  if stopThread_ g then None
  else if negb (enableReclamation_ g) then Some g
  else
    let '(arenas', released') := reclaim_pass (arenas_ g) (released_ g) in
    Some (mkMgr arenas' released' (stopThread_ g) (enableReclamation_ g)).

(** [GlobalArenaManager::createArena(arenaSize)]: returns the arena, the
    memory, the platform's break and the manager. *)
Definition createArena (m : mem) (brk arenaSize : Z) (g : Mgr) : Arena * mem * Z * Mgr :=
  let '(m', a, brk') := Arena_new m brk arenaSize in
  (a, m', brk', mkMgr (arenas_ g ++ [a]) (released_ g) (stopThread_ g) (enableReclamation_ g)).

(** The clean-up loop of [~GlobalArenaManager] (after the thread is joined). *)
Definition mgr_dtor (g : Mgr) : list Z :=
  fold_left (fun released a => destroy_delete a released) (arenas_ g) (released_ g).

(** * Properties *)

(** ** Helper lemmas on the monad *)

Lemma bind_Some {A B} (m : AM A) (k : A -> AM B) s r s' :
  bind m k s = Some (r, s') ->
  exists a s1, m s = Some (a, s1) /\ k a s1 = Some (r, s').
Proof.
  unfold bind. destruct (m s) as [[a s1]|]; [eauto | discriminate].
Qed.

(** ** The dispatcher's free routing *)

(** C1 (failing input). A 300-byte request is served by the arena, at
    [header + 32]; the four bytes below the pointer are the trailing padding
    of the header, not its magic word (which sits at offset 0). They are
    zero, so [deallocate] sends the block to [freeSmall]; there the word
    taken for [binIndex] is the header's [userSize] (300), out of range, so
    the free is dropped: the block stays allocated and no statistic moves. *)
Theorem dispatcher_arena_block_not_routed_to_arena :
  match allocate 300 (FPTA_new 8192) with
  | Some (p, s1) =>
    p <> 0 /\
    p = memory_ (arena8k.(as_ar)) + SIZEOF_HDR /\
    load (f_mem s1) (p - SIZEOF_HDR + HDR_MAGIC) 4 = MAGIC /\
    load (f_mem s1) (p - 4) 4 = 0 /\
    marker_is_arena (f_mem s1) p = false /\
    match deallocate p s1 with
    | Some s2 =>
      f_stats s2 = f_stats s1 /\
      currentUsedBytes (f_stats s2) = 356 /\
      load (f_mem s2) (p - SIZEOF_HDR + HDR_FREE) 1 = 0
    | None => False
    end
  | None => False
  end.
Proof. vm_compute. repeat split; congruence. Qed.

(** ** Round trip of the used-bytes gauge *)

(** C2 (failing inputs). Allocating and freeing a 40-byte block twice (the
    second allocation pops the cached block, which adds nothing, while each
    free subtracts the 80-byte chunk) leaves [currentUsedBytes] at
    2^64 - 80; allocating and freeing a 300-byte block leaves it at 356. *)
Theorem round_trip_gauge_not_zero :
  option_map (fun '(_, s) => currentUsedBytes (f_stats s))
    (run [OAlloc 40 0; OFree 0; OAlloc 40 0; OFree 0] [0] (FPTA_new 8192))
  = Some (W64 - 80) /\
  option_map (fun '(_, s) => currentUsedBytes (f_stats s))
    (run [OAlloc 300 0; OFree 0] [0] (FPTA_new 8192))
  = Some 356.
Proof. vm_compute. split; reflexivity. Qed.

(** ** Coalescing *)

(** C3 (failing input). Three 264-byte blocks A, B, C; free A, then B. A's
    footer still says "allocated" (deallocate only sets the header flag and
    A has no free neighbour to merge with), so B's backward probe does not
    merge, and A and B stay two adjacent free blocks. *)
Theorem adjacent_free_blocks_after_two_frees :
  option_map blocks (exec scen_two_frees arena8k) =
    Some [(4096, true, false); (4416, true, false);
          (4736, false, false); (5056, true, true)] /\
  option_map no_adjacent_free (exec scen_two_frees arena8k) = Some false.
Proof. vm_compute. split; reflexivity. Qed.

(** ** Footer flag *)

(** C4 (failing input). Two 264-byte blocks; free the first. Its header says
    free, its footer still says allocated. *)
Theorem deallocate_leaves_footer_allocated :
  option_map blocks (exec scen_one_free arena8k) =
    Some [(4096, true, false); (4416, false, false); (4736, true, true)].
Proof. vm_compute. reflexivity. Qed.

(** ** Header recovery *)

(** C5 (failing input). After a 257-byte block, the next 264-byte block
    starts at base + 313 and gets 7 bytes of padding: the pointer is
    base + 352. [deallocate] looks for the header at base + 320, where the
    word is not [MAGIC], and drops the free: the block at base + 313 stays
    allocated and [usedBytes_] keeps its 327 bytes. *)
Theorem deallocate_misses_padded_header :
  match scen_padded arena8k with
  | Some (p, s) =>
    p = 4096 + 313 + SIZEOF_HDR + 7 /\
    load (as_mem s) (p - SIZEOF_HDR) 4 <> MAGIC /\
    blocks s = [(4096, false, false); (4409, false, false); (4736, true, true)] /\
    usedBytes_ (as_ar s) = 313 + 327
  | None => False
  end.
Proof. vm_compute. repeat split; congruence. Qed.

(** ** Invalid frees *)

Definition scen_double_free : AM Z :=
  p <- scen_alloc_free ;; Arena_deallocate p ;;; ret p.

(** C6 (failing input). Freeing an arena pointer a second time is rejected
    (its header is already free) but [totalFreeCalls] is incremented. *)
Theorem double_free_counts_free_call :
  match scen_alloc_free arena8k with
  | Some (p, s1) =>
    load (as_mem s1) (p - SIZEOF_HDR + HDR_FREE) 1 = 1 /\
    match Arena_deallocate p s1 with
    | Some (_, s2) =>
      totalFreeCalls (as_stats s2) = totalFreeCalls (as_stats s1) + 1 /\
      currentUsedBytes (as_stats s2) = currentUsedBytes (as_stats s1)
    | None => False
    end
  | None => False
  end.
Proof. vm_compute. repeat split; congruence. Qed.

(** ** Statistics *)

(** C8 (failing input). The C2 small-bin sequence drives [currentUsedBytes]
    to 2^64 - 80 while [peakUsedBytes] is 80: current exceeds peak. *)
Theorem reused_small_free_current_exceeds_peak :
  match run [OAlloc 40 0; OFree 0; OAlloc 40 0; OFree 0] [0] (FPTA_new 8192) with
  | Some (_, s) =>
    peakUsedBytes (f_stats s) = 80 /\
    currentUsedBytes (f_stats s) = W64 - 80 /\
    currentUsedBytes (f_stats s) > peakUsedBytes (f_stats s)
  | None => False
  end.
Proof. vm_compute. repeat split; congruence. Qed.

(** ** Failed arena allocation *)

(** A computation every successful run of which yields [Some _]. *)
Definition yields_some {A} (m : AM (option A)) : Prop :=
  forall s r s', m s = Some (r, s') -> r <> None.

Lemma yields_some_bind {A B} (m : AM B) (k : B -> AM (option A)) :
  (forall b, yields_some (k b)) -> yields_some (bind m k).
Proof.
  intros Hk s r s' H. apply bind_Some in H as (b & s1 & _ & H). exact (Hk b _ _ _ H).
Qed.

Lemma yields_some_ret {A} (a : A) : yields_some (ret (Some a)).
Proof. intros s r s' H. inversion H. discriminate. Qed.

(** The success branch of allocate always returns a pointer. *)
Lemma alloc_take_yields_some prev cur reqSize padding :
  yields_some (alloc_take prev cur reqSize padding).
Proof.
  unfold alloc_take.
  repeat (apply yields_some_bind; intros).
  apply yields_some_ret.
Qed.

Lemma rd_state a n s v s' : rd a n s = Some (v, s') -> s' = s.
Proof. unfold rd. destruct (in_region _ _ _); intros H; inversion H; reflexivity. Qed.

Lemma rd_bool_state a s v s' : rd_bool a s = Some (v, s') -> s' = s.
Proof.
  unfold rd_bool. intros H. apply bind_Some in H as (x & s1 & H1 & H).
  apply rd_state in H1. unfold ret in H. inversion H. subst. reflexivity.
Qed.

(** A first-fit walk that ends empty-handed has only read memory. *)
Lemma alloc_loop_none_state fuel : forall prev cur reqSize alignment s s',
  alloc_loop fuel prev cur reqSize alignment s = Some (None, s') -> s' = s.
Proof.
  induction fuel as [|fuel IH]; intros prev cur reqSize alignment s s' H;
    simpl in H; [discriminate|].
  destruct (cur =? 0); [inversion H; reflexivity|].
  apply bind_Some in H as (isFree & s1 & H1 & H). apply rd_bool_state in H1. subst s1.
  apply bind_Some in H as (ts & s2 & H2 & H).
  assert (s2 = s) by (destruct isFree; [eapply rd_state; eauto | inversion H2; reflexivity]).
  subst s2.
  cbv zeta in H.
  assert (Hnext : forall s0, bind (rd (cur + FB_NEXT) 8)
                     (fun nxt => alloc_loop fuel cur nxt reqSize alignment) s0
                   = Some (None, s') -> s' = s0).
  { intros s0 H0. apply bind_Some in H0 as (nxt & s3 & H3 & H0).
    apply rd_state in H3. subst s3. exact (IH _ _ _ _ _ _ H0). }
  destruct (isFree && _); [|exact (Hnext _ H)].
  destruct (std_align _ _ _ _) as [[aligned sp]|]; [|exact (Hnext _ H)].
  destruct (ts >=? _); [|exact (Hnext _ H)].
  exfalso. eapply alloc_take_yields_some; [exact H | reflexivity].
Qed.

(** C7 (amended). When [Arena::allocate] returns [nullptr] because the
    free-list walk found no block, memory (block headers, footers and free
    links), the arena object ([firstFree_], [usedBytes_]) and the statistics
    are as before, except [totalAllocCalls], which counted the call. *)
Theorem Arena_allocate_failure_frame reqSize alignment s s' :
  Arena_allocate reqSize alignment s = Some (None, s') ->
  as_mem s' = as_mem s /\ as_ar s' = as_ar s /\
  as_stats s' = addAllocCall (as_stats s).
Proof.
  unfold Arena_allocate. intros H.
  apply bind_Some in H as (u & s1 & H1 & H).
  apply bind_Some in H as (ar & s2 & H2 & H).
  apply alloc_loop_none_state in H.
  cbv [modify_stats] in H1. inversion H1; subst.
  cbv [get_ar] in H2. inversion H2; subst.
  simpl. auto.
Qed.

(** C7 as stated fails: a failed allocation does change [totalAllocCalls]. *)
Lemma Arena_allocate_failure_counts_call :
  match Arena_allocate 9000 MAX_ALIGN arena8k with
  | Some (None, s') =>
    totalAllocCalls (as_stats s') = 1 /\ totalAllocCalls (as_stats arena8k) = 0
  | _ => False
  end.
Proof. vm_compute. split; reflexivity. Qed.

Lemma Arena_allocate_failure_frame_witness :
  Arena_allocate 9000 MAX_ALIGN arena8k =
    Some (None, mkAS (as_mem arena8k) (as_ar arena8k) (addAllocCall (as_stats arena8k))) /\
  totalAllocCalls (addAllocCall (as_stats arena8k)) = 1.
Proof.
  assert (H : Arena_allocate 9000 MAX_ALIGN arena8k =
    Some (None, mkAS (as_mem arena8k) (as_ar arena8k) (addAllocCall (as_stats arena8k))))
    by reflexivity.
  split; [exact H|].
  destruct (Arena_allocate_failure_frame _ _ _ _ H) as (_ & _ & E).
  reflexivity.
Defined.

(** ** Well-formed arenas and the coalescing probes *)

(** Block [t] of [bt] bytes: large enough for a header and a footer, header
    and footer both recording [bt]. *)
Definition tile_at (m : mem) (t bt : Z) : Prop :=
  SIZEOF_HDR + SIZEOF_FTR <= bt /\
  load m (t + HDR_TOTAL) 8 = bt /\
  load m (t + bt - SIZEOF_FTR + FTR_TOTAL) 8 = bt.

(** Blocks of sizes [bs], laid end to end from [a]. *)
Fixpoint tiles (m : mem) (a : Z) (bs : list Z) : Prop :=
  match bs with
  | [] => True
  | b :: rest => tile_at m a b /\ tiles m (a + b) rest
  end.

Fixpoint starts (a : Z) (bs : list Z) : list Z :=
  match bs with
  | [] => []
  | b :: rest => a :: starts (a + b) rest
  end.

Definition sum (bs : list Z) : Z := fold_right Z.add 0 bs.

(** The region is tiled exactly by the blocks [bs]. *)
Definition wf_arena (s : AS) (bs : list Z) : Prop :=
  tiles (as_mem s) (memory_ (as_ar s)) bs /\ sum bs = arenaSize_ (as_ar s).

Lemma tiles_forward m bs : forall a t,
  tiles m a bs -> In t (starts a bs) ->
  exists bt, tile_at m t bt /\ a <= t /\ t + bt <= a + sum bs /\
             (t + bt = a + sum bs \/ In (t + bt) (starts a bs)).
Proof.
  induction bs as [|b r IH]; intros a t Ht Hin; simpl in Hin; [contradiction|].
  destruct Ht as [Hb Hr]. pose proof Hb as (Hmin & _ & _).
  assert (Hpos : forall a', tiles m a' r -> forall t', In t' (starts a' r) -> a' <= t').
  { intros a' Ha' t' Ht'. destruct (IH a' t' Ha' Ht') as (? & _ & ? & _). lia. }
  destruct Hin as [<- | Hin].
  - exists b. simpl. split; [exact Hb|]. split; [lia|].
    destruct r as [|b' r'].
    + simpl. split; [lia|]. left. lia.
    + destruct Hr as [Hb' Hr']. pose proof Hb' as (Hmin' & _ & _).
      assert (0 <= sum r').
      { clear -Hr'. revert Hr'. generalize (a + b + b'). induction r' as [|x r'' IHr];
          intros a'' H; simpl; [lia|].
        destruct H as [(? & _ & _) H]. specialize (IHr _ H). unfold SIZEOF_HDR, SIZEOF_FTR in *. lia. }
      simpl. unfold SIZEOF_HDR, SIZEOF_FTR in *. split; [lia|]. right. right. left. reflexivity.
  - destruct (IH _ _ Hr Hin) as (bt & Htile & H1 & H2 & H3).
    exists bt. simpl. split; [exact Htile|]. unfold SIZEOF_HDR, SIZEOF_FTR in *.
    split; [lia|]. split; [lia|].
    destruct H3 as [H3|H3]; [left; lia | right; right; exact H3].
Qed.

Lemma tiles_backward m bs : forall a t,
  tiles m a bs -> In t (starts a bs) -> t <> a ->
  exists p bp, In p (starts a bs) /\ tile_at m p bp /\ p + bp = t.
Proof.
  induction bs as [|b r IH]; intros a t Ht Hin Hne; simpl in Hin; [contradiction|].
  destruct Ht as [Hb Hr].
  destruct Hin as [<- | Hin]; [congruence|].
  destruct (Z.eq_dec t (a + b)) as [->|Hne'].
  - exists a, b. simpl. auto.
  - destruct (IH _ _ Hr Hin Hne') as (p & bp & Hp & Htile & Heq).
    exists p, bp. simpl. auto.
Qed.

Lemma in_region_true ar a n :
  memory_ ar <= a -> a + n <= memory_ ar + arenaSize_ ar -> in_region ar a n = true.
Proof. intros. unfold in_region. apply andb_true_intro. split; apply Z.leb_le; lia. Qed.

Ltac region := unfold SIZEOF_HDR, SIZEOF_FTR, HDR_TOTAL, HDR_MAGIC, HDR_FREE,
                 FTR_TOTAL, FTR_MAGIC, FTR_FREE in *; lia.

Lemma fwdProbe_in_region s bs blk :
  wf_arena s bs -> In blk (starts (memory_ (as_ar s)) bs) ->
  exists r, fwdProbe blk s = Some (r, s).
Proof.
  intros [Ht Hsum] Hin.
  destruct (tiles_forward _ _ _ _ Ht Hin) as (bt & (Hmin & Hts & Hfs) & Hlo & Hhi & Hnext).
  rewrite Hsum in Hhi, Hnext.
  unfold fwdProbe. cbv [bind rd rd_bool ret get_ar].
  rewrite (in_region_true (as_ar s) (blk + HDR_TOTAL) 8) by region.
  rewrite Hts.
  destruct (blk + bt >=? memory_ (as_ar s) + arenaSize_ (as_ar s)) eqn:E; [eauto|].
  rewrite Z.geb_leb, Z.leb_gt in E.
  destruct Hnext as [Heq | Hin']; [lia|].
  destruct (tiles_forward _ _ _ _ Ht Hin') as (bn & (Hmin' & _ & _) & Hlo' & Hhi' & _).
  rewrite Hsum in Hhi'.
  rewrite (in_region_true (as_ar s) (blk + bt + HDR_MAGIC) 4) by region.
  destruct (load (as_mem s) (blk + bt + HDR_MAGIC) 4 =? MAGIC); [|eauto].
  rewrite (in_region_true (as_ar s) (blk + bt + HDR_FREE) 1) by region.
  eauto.
Qed.

Lemma bwdProbe_in_region s bs blk :
  wf_arena s bs -> In blk (starts (memory_ (as_ar s)) bs) ->
  exists r, bwdProbe blk s = Some (r, s).
Proof.
  intros [Ht Hsum] Hin.
  unfold bwdProbe. cbv [bind rd rd_bool ret get_ar].
  destruct (blk =? memory_ (as_ar s)) eqn:E0; [eauto|].
  apply Z.eqb_neq in E0.
  destruct (tiles_backward _ _ _ _ Ht Hin E0) as (p & bp & Hp & (Hmin & Hts & Hfs) & Heq).
  destruct (tiles_forward _ _ _ _ Ht Hp) as (bp' & (_ & Hts' & _) & Hlo & Hhi & _).
  rewrite Hts in Hts'. subst bp'. rewrite Hsum in Hhi.
  destruct (blk - SIZEOF_FTR <? memory_ (as_ar s)) eqn:E1; [eauto|].
  rewrite (in_region_true (as_ar s) (blk - SIZEOF_FTR + FTR_MAGIC) 4) by region.
  destruct (load (as_mem s) (blk - SIZEOF_FTR + FTR_MAGIC) 4 =? MAGIC); [|eauto].
  rewrite (in_region_true (as_ar s) (blk - SIZEOF_FTR + FTR_FREE) 1) by region.
  destruct (negb (load (as_mem s) (blk - SIZEOF_FTR + FTR_FREE) 1 =? 0)); [|eauto].
  rewrite (in_region_true (as_ar s) (blk - SIZEOF_FTR + FTR_TOTAL) 8) by region.
  rewrite Heq in Hfs. rewrite Hfs.
  replace (blk - bp) with p by lia.
  rewrite (in_region_true (as_ar s) (p + HDR_MAGIC) 4) by region.
  destruct (load (as_mem s) (p + HDR_MAGIC) 4 =? MAGIC); [|eauto].
  rewrite (in_region_true (as_ar s) (p + HDR_FREE) 1) by region.
  eauto.
Qed.

(** C10. In an arena whose region is tiled exactly by well-formed blocks,
    for the block [blk] being freed: the forward probe (the next block's
    header) and the backward probe (the previous block's footer, then the
    header it points to) read only inside [memory_, memory_ + arenaSize_)
    (every read of the arena model is checked against the region, and both
    probes complete without changing the state); the forward probe stops
    before reading when [blk] ends at the region's end, the backward probe
    when [blk] is at the region's base. *)
Theorem coalesce_probes_in_region s bs blk :
  wf_arena s bs -> In blk (starts (memory_ (as_ar s)) bs) ->
  (exists r, fwdProbe blk s = Some (r, s)) /\
  (exists r, bwdProbe blk s = Some (r, s)) /\
  (blk + load (as_mem s) (blk + HDR_TOTAL) 8 =
     memory_ (as_ar s) + arenaSize_ (as_ar s) -> fwdProbe blk s = Some (None, s)) /\
  (blk = memory_ (as_ar s) -> bwdProbe blk s = Some (None, s)).
Proof.
  intros Hwf Hin.
  split; [exact (fwdProbe_in_region _ _ _ Hwf Hin)|].
  split; [exact (bwdProbe_in_region _ _ _ Hwf Hin)|].
  destruct Hwf as [Ht Hsum].
  destruct (tiles_forward _ _ _ _ Ht Hin) as (bt & (Hmin & Hts & Hfs) & Hlo & Hhi & _).
  rewrite Hsum in Hhi.
  split.
  - intros Hend. unfold fwdProbe. cbv [bind rd ret get_ar].
    rewrite (in_region_true (as_ar s) (blk + HDR_TOTAL) 8) by region.
    rewrite Hend, Z.geb_leb, Z.leb_refl. reflexivity.
  - intros ->. unfold bwdProbe. cbv [bind ret get_ar]. rewrite Z.eqb_refl. reflexivity.
Qed.

(** The state after freeing A and B in the C3 scenario. *)
Definition arena_after_two_frees : AS :=
  match exec scen_two_frees arena8k with Some s => s | None => arena8k end.

Lemma coalesce_probes_in_region_witness :
  wf_arena arena_after_two_frees [320; 320; 320; 7232] /\
  In 4416 (starts (memory_ (as_ar arena_after_two_frees)) [320; 320; 320; 7232]) /\
  (exists r, fwdProbe 4416 arena_after_two_frees = Some (r, arena_after_two_frees)) /\
  (exists r, bwdProbe 4416 arena_after_two_frees = Some (r, arena_after_two_frees)).
Proof.
  assert (Hwf : wf_arena arena_after_two_frees [320; 320; 320; 7232]).
  { vm_compute. repeat split; congruence. }
  assert (Hin : In 4416 (starts (memory_ (as_ar arena_after_two_frees)) [320; 320; 320; 7232])).
  { vm_compute. auto. }
  destruct (coalesce_probes_in_region _ _ _ Hwf Hin) as (H1 & H2 & _ & _).
  split; [exact Hwf|]. split; [exact Hin|]. split; [exact H1 | exact H2].
Defined.

(** ** Memory lemmas *)

Lemma load_bytes_ext m1 m2 k : forall x,
  (forall i, x <= i < x + Z.of_nat k -> m1 i = m2 i) ->
  load_bytes m1 x k = load_bytes m2 x k.
Proof.
  induction k as [|k IH]; intros x H; cbn [load_bytes]; [reflexivity|].
  rewrite (H x) by lia. f_equal. f_equal. apply IH. intros i Hi. apply H. lia.
Qed.

Lemma load_store_other m a n v x k :
  0 <= k -> x + k <= a \/ a + n <= x ->
  load (store m a n v) x k = load m x k.
Proof.
  intros Hk Hd. unfold load. apply load_bytes_ext. intros i Hi.
  rewrite Z2Nat.id in Hi by lia.
  unfold store. destruct ((a <=? i) && (i <? a + n)) eqn:E; [|reflexivity].
  apply andb_true_iff in E as [E1 E2]. apply Z.leb_le in E1. apply Z.ltb_lt in E2. lia.
Qed.

Lemma load_bytes_zero m k : forall x,
  (forall i, x <= i < x + Z.of_nat k -> m i = 0) -> load_bytes m x k = 0.
Proof.
  induction k as [|k IH]; intros x H; cbn [load_bytes]; [reflexivity|].
  rewrite (H x) by lia. rewrite IH; [lia|]. intros i Hi. apply H. lia.
Qed.

Lemma load_memset0_inside m a n x k :
  0 <= k -> a <= x -> x + k <= a + n -> load (memset0 m a n) x k = 0.
Proof.
  intros Hk H1 H2. unfold load, memset0. apply load_bytes_zero. intros i Hi.
  rewrite Z2Nat.id in Hi by lia.
  unfold store. replace ((a <=? i) && (i <? a + n)) with true.
  - rewrite Z.shiftr_0_l. reflexivity.
  - symmetry. apply andb_true_iff. split; [apply Z.leb_le | apply Z.ltb_lt]; lia.
Qed.

Lemma byte_of_word v j : 0 <= j ->
  Z.land (Z.shiftr v (8 * j)) 255 = (v / 256 ^ j) mod 256.
Proof.
  intros Hj. rewrite Z.shiftr_div_pow2 by lia.
  replace 255 with (Z.ones 8) by reflexivity. rewrite Z.land_ones by lia.
  replace (2 ^ (8 * j)) with (256 ^ j); [reflexivity|].
  rewrite Z.pow_mul_r by lia. reflexivity.
Qed.

Lemma load_bytes_store_inside m a n v k : forall x,
  0 <= v -> a <= x -> x + Z.of_nat k <= a + n ->
  load_bytes (store m a n v) x k = (v / 256 ^ (x - a)) mod 256 ^ Z.of_nat k.
Proof.
  induction k as [|k IH]; intros x Hv H1 H2; cbn [load_bytes].
  - rewrite Z.pow_0_r, Z.mod_1_r. reflexivity.
  - rewrite IH by lia.
    unfold store at 1. replace ((a <=? x) && (x <? a + n)) with true
      by (symmetry; apply andb_true_iff; split; [apply Z.leb_le | apply Z.ltb_lt]; lia).
    rewrite byte_of_word by lia.
    replace (x + 1 - a) with ((x - a) + 1) by lia.
    rewrite Z.pow_add_r, Z.pow_1_r by lia.
    rewrite <- Z.div_div by (try apply Z.pow_nonzero; lia).
    rewrite Nat2Z.inj_succ, Z.pow_succ_r by lia.
    rewrite Z.rem_mul_r by (try apply Z.pow_pos_nonneg; lia).
    reflexivity.
Qed.

Lemma load_store_same m a n v :
  0 <= n -> 0 <= v < 256 ^ n -> load (store m a n v) a n = v.
Proof.
  intros Hn Hv. unfold load.
  rewrite load_bytes_store_inside by (rewrite ?Z2Nat.id; lia).
  rewrite Z.sub_diag, Z.pow_0_r, Z.div_1_r, Z2Nat.id by lia.
  apply Z.mod_small. exact Hv.
Qed.

(** ** The small-cache invariant *)

Record small_inv (s : SS) (cs : list (Z * Z)) : Prop := {
  si_brk : 0 < ss_brk s <= W64;
  si_len : length (ss_heads s) = 4%nat;
  si_bounds : forall h b, In (h, b) cs ->
    0 <= b < SMALL_BIN_COUNT /\ 0 < h /\ h + chunk_size b <= ss_brk s;
  si_disj : forall h1 b1 h2 b2, In (h1, b1) cs -> In (h2, b2) cs ->
    (h1 = h2 /\ b1 = b2) \/ h1 + chunk_size b1 <= h2 \/ h2 + chunk_size b2 <= h1;
  si_bin : forall h b, In (h, b) cs -> load (ss_mem s) (h + SB_BIN) 8 = b;
  si_link : forall h b, In (h, b) cs ->
    load (ss_mem s) (h + SFB_NEXT) 8 = 0 \/
    In (load (ss_mem s) (h + SFB_NEXT) 8, b) cs;
  si_heads : forall i, 0 <= i < SMALL_BIN_COUNT ->
    head_of (ss_heads s) i = 0 \/ In (head_of (ss_heads s) i, i) cs
}.

Lemma chunk_size_ge b : 48 <= chunk_size b.
Proof.
  unfold chunk_size, SIZEOF_SMALLHDR, SMALL_BIN_SIZE.
  destruct (b =? 0); [lia|]. destruct (b =? 1); [lia|]. destruct (b =? 2); lia.
Qed.

Lemma findBin_range n : findBin n = -1 \/ 0 <= findBin n < SMALL_BIN_COUNT.
Proof.
  unfold findBin, SMALL_BIN_COUNT.
  destruct (n <=? _); [lia|]. destruct (n <=? _); [lia|].
  destruct (n <=? _); [lia|]. destruct (n <=? _); lia.
Qed.

Lemma nth_list_set l i j v :
  (j < length l)%nat -> nth i (list_set l j v) 0 = if Nat.eqb i j then v else nth i l 0.
Proof.
  revert i j. induction l as [|x l IH]; intros i j Hj; simpl in Hj; [lia|].
  destruct j as [|j], i as [|i]; simpl; try reflexivity.
  apply IH. lia.
Qed.

Lemma list_set_length l j v : length (list_set l j v) = length l.
Proof.
  revert j. induction l as [|x l IH]; intros j; [reflexivity|].
  destruct j; simpl; [reflexivity|]. rewrite IH. reflexivity.
Qed.

Lemma head_of_set l i j v :
  0 <= i -> 0 <= j -> (Z.to_nat j < length l)%nat ->
  head_of (set_head l j v) i = if i =? j then v else head_of l i.
Proof.
  intros Hi Hj Hlen. unfold head_of, set_head. rewrite nth_list_set by exact Hlen.
  destruct (Z.eqb_spec i j) as [->|Hne].
  - rewrite Nat.eqb_refl. reflexivity.
  - destruct (Nat.eqb_spec (Z.to_nat i) (Z.to_nat j)); [lia|reflexivity].
Qed.

Lemma to_int32_small b : 0 <= b < SMALL_BIN_COUNT -> to_int32 b = b.
Proof.
  intros Hb. unfold to_int32, SMALL_BIN_COUNT in *.
  rewrite Z.mod_small by lia. destruct (b >=? 2 ^ 31) eqn:E; [|reflexivity].
  apply Z.geb_le in E. lia.
Qed.

Lemma W64_pow : W64 = 256 ^ 8.
Proof. reflexivity. Qed.

(** Fields of chunk [h'] are untouched by an 8-byte write at offset [o] of a
    different chunk or at a different offset of the same chunk. *)
Lemma field_untouched s cs h b h' b' o o' v :
  small_inv s cs -> In (h, b) cs -> In (h', b') cs ->
  0 <= o -> o + 8 <= 24 -> 0 <= o' -> o' + 8 <= 24 ->
  (h = h' -> o <> o') ->
  (o = 0 \/ o = 8 \/ o = 16) -> (o' = 0 \/ o' = 8 \/ o' = 16) ->
  load (store (ss_mem s) (h + o) 8 v) (h' + o') 8 = load (ss_mem s) (h' + o') 8.
Proof.
  intros Hi Hin Hin' ? ? ? ? Hne Ho Ho'.
  apply load_store_other; [lia|].
  pose proof (chunk_size_ge b). pose proof (chunk_size_ge b').
  destruct (si_disj _ _ Hi h b h' b' Hin Hin') as [[-> ->]|[Hd|Hd]]; [|lia|lia].
  specialize (Hne eq_refl). lia.
Qed.

Lemma freeSmall_chunk s cs h b :
  small_inv s cs -> In (h, b) cs ->
  freeSmall (h + SIZEOF_SMALLHDR) s =
  mkSS (store (ss_mem s) (h + SFB_NEXT) 8 (head_of (ss_heads s) b)) (ss_brk s)
       (set_head (ss_heads s) b h)
       (subCurrent (addFreeCall (ss_stats s)) (SIZEOF_SMALLHDR + SMALL_BIN_SIZE b)).
Proof.
  intros Hi Hin. pose proof (si_bounds _ _ Hi _ _ Hin) as (Hb & Hh & _).
  unfold freeSmall.
  replace (h + SIZEOF_SMALLHDR =? 0) with false
    by (symmetry; apply Z.eqb_neq; unfold SIZEOF_SMALLHDR; lia).
  replace (h + SIZEOF_SMALLHDR - SIZEOF_SMALLHDR) with h by lia.
  rewrite (si_bin _ _ Hi _ _ Hin), to_int32_small by exact Hb.
  replace ((b <? 0) || (b >=? SMALL_BIN_COUNT)) with false.
  - reflexivity.
  - symmetry. apply orb_false_iff.
    split; [apply Z.ltb_ge | rewrite Z.geb_leb; apply Z.leb_gt]; lia.
Qed.

Lemma small_inv_free s cs h b :
  small_inv s cs -> In (h, b) cs -> small_inv (freeSmall (h + SIZEOF_SMALLHDR) s) cs.
Proof.
  intros Hi Hin. rewrite (freeSmall_chunk _ _ _ _ Hi Hin).
  pose proof (si_bounds _ _ Hi _ _ Hin) as (Hb & Hh & Hhb).
  pose proof (si_brk _ _ Hi) as Hbrk.
  constructor; simpl.
  - exact Hbrk.
  - unfold set_head. rewrite list_set_length. exact (si_len _ _ Hi).
  - exact (si_bounds _ _ Hi).
  - exact (si_disj _ _ Hi).
  - intros h' b' Hin'. unfold SB_BIN, SFB_NEXT.
    rewrite (field_untouched s cs h b h' b' 16 0) by (auto; lia).
    exact (si_bin _ _ Hi _ _ Hin').
  - intros h' b' Hin'.
    destruct (Z.eq_dec h h') as [<-|Hne].
    + destruct (si_disj _ _ Hi h b h b' Hin Hin') as [[_ <-]|Hd];
        [|pose proof (chunk_size_ge b); pose proof (chunk_size_ge b'); lia].
      assert (Hv : 0 <= head_of (ss_heads s) b < 256 ^ 8).
      { rewrite <- W64_pow. destruct (si_heads _ _ Hi b Hb) as [->|Hh'].
        - split; [lia | reflexivity].
        - pose proof (si_bounds _ _ Hi _ _ Hh') as (_ & ? & ?).
          pose proof (chunk_size_ge b). lia. }
      rewrite load_store_same by (exact Hv || lia).
      exact (si_heads _ _ Hi b Hb).
    + unfold SFB_NEXT.
      rewrite (field_untouched s cs h b h' b' 16 16) by (auto; lia).
      exact (si_link _ _ Hi _ _ Hin').
  - intros i Hi4. pose proof (si_len _ _ Hi) as Hlen.
    rewrite head_of_set by (unfold SMALL_BIN_COUNT in *; lia).
    destruct (i =? b) eqn:E.
    + apply Z.eqb_eq in E. subst i. right. exact Hin.
    + exact (si_heads _ _ Hi i Hi4).
Qed.

Lemma round16_ge n : n <= round16 n.
Proof.
  unfold round16. pose proof (Z.mod_pos_bound (n + 15) 16 ltac:(lia)).
  pose proof (Z.div_mod (n + 15) 16 ltac:(lia)). lia.
Qed.

Lemma round16_le n : round16 n <= n + 15.
Proof.
  unfold round16. pose proof (Z.mod_pos_bound (n + 15) 16 ltac:(lia)).
  pose proof (Z.div_mod (n + 15) 16 ltac:(lia)). lia.
Qed.

Lemma findBin_neg_false n : 0 <= findBin n -> (findBin n <? 0) = false.
Proof. intros. apply Z.ltb_ge. exact H. Qed.

Lemma allocateSmall_pop n s :
  0 <= findBin n -> head_of (ss_heads s) (findBin n) <> 0 ->
  allocateSmall n s =
  (head_of (ss_heads s) (findBin n) + SIZEOF_SMALLHDR,
   mkSS (store (ss_mem s) (head_of (ss_heads s) (findBin n) + SB_USER) 8 n) (ss_brk s)
        (set_head (ss_heads s) (findBin n)
           (load (ss_mem s) (head_of (ss_heads s) (findBin n) + SFB_NEXT) 8))
        (ss_stats s)).
Proof.
  intros Hb Hh. unfold allocateSmall. rewrite findBin_neg_false by exact Hb.
  apply Z.eqb_neq in Hh. rewrite Hh. reflexivity.
Qed.

Lemma allocateSmall_fresh n s :
  0 <= findBin n -> head_of (ss_heads s) (findBin n) = 0 ->
  allocateSmall n s =
  (ss_brk s + SIZEOF_SMALLHDR,
   mkSS (store (store (memset0 (ss_mem s) (ss_brk s) (chunk_size (findBin n)))
                  (ss_brk s + SB_BIN) 8 (findBin n))
               (ss_brk s + SB_USER) 8 n)
        (ss_brk s + round16 (chunk_size (findBin n)))
        (ss_heads s)
        (updatePeak (addCurrent (addAllocCall (ss_stats s)) (chunk_size (findBin n))))).
Proof.
  intros Hb Hh. unfold allocateSmall. rewrite findBin_neg_false by exact Hb.
  rewrite Hh. reflexivity.
Qed.

Lemma alloc_ghost_small n s cs :
  0 <= findBin n ->
  alloc_ghost n s cs =
  if head_of (ss_heads s) (findBin n) =? 0 then (ss_brk s, findBin n) :: cs else cs.
Proof.
  intros Hb. unfold alloc_ghost. rewrite findBin_neg_false by exact Hb.
  destruct (head_of (ss_heads s) (findBin n) =? 0); reflexivity.
Qed.

Lemma small_inv_alloc s cs n :
  small_inv s cs -> ss_brk s + 272 <= W64 ->
  small_inv (snd (allocateSmall n s)) (alloc_ghost n s cs).
Proof.
  intros Hi Hroom.
  destruct (findBin_range n) as [Hneg|Hb].
  { unfold allocateSmall, alloc_ghost. rewrite Hneg. exact Hi. }
  pose proof (si_brk _ _ Hi) as Hbrk. pose proof (si_len _ _ Hi) as Hlen.
  rewrite alloc_ghost_small by lia.
  set (bin := findBin n) in *.
  destruct (head_of (ss_heads s) bin =? 0) eqn:Eh.
  - (* a fresh chunk from the platform *)
    apply Z.eqb_eq in Eh.
    rewrite allocateSmall_fresh by (unfold bin in *; lia).
    fold bin. simpl.
    assert (Hsz : chunk_size bin <= 272).
    { unfold chunk_size, SIZEOF_SMALLHDR, SMALL_BIN_SIZE.
      destruct (bin =? 0); [lia|]. destruct (bin =? 1); [lia|]. destruct (bin =? 2); lia. }
    pose proof (chunk_size_ge bin) as Hge.
    pose proof (round16_ge (chunk_size bin)). pose proof (round16_le (chunk_size bin)).
    assert (Hround : round16 (chunk_size bin) <= 272).
    { unfold round16. assert (chunk_size bin + 15 <= 287) by lia.
      assert ((chunk_size bin + 15) / 16 <= 287 / 16) by (apply Z.div_le_mono; lia).
      change (287 / 16) with 17 in *. lia. }
    (* old fields are below the break, the new writes at or above it *)
    assert (Hold : forall h b o, In (h, b) cs -> 0 <= o -> o + 8 <= chunk_size b ->
      load (store (store (memset0 (ss_mem s) (ss_brk s) (chunk_size bin))
                         (ss_brk s + SB_BIN) 8 bin) (ss_brk s + SB_USER) 8 n) (h + o) 8
      = load (ss_mem s) (h + o) 8).
    { intros h b o Hin Ho1 Ho2. pose proof (si_bounds _ _ Hi _ _ Hin) as (_ & _ & Hhb).
      unfold memset0, SB_BIN, SB_USER.
      rewrite !load_store_other by lia. reflexivity. }
    constructor; simpl.
    + lia.
    + exact Hlen.
    + intros h b [[= <- <-]|Hin].
      * unfold bin, SMALL_BIN_COUNT in *. lia.
      * pose proof (si_bounds _ _ Hi _ _ Hin) as (? & ? & ?). lia.
    + intros h1 b1 h2 b2 [[= <- <-]|Hin1] [[= <- <-]|Hin2].
      * left. auto.
      * pose proof (si_bounds _ _ Hi _ _ Hin2) as (_ & _ & ?). lia.
      * pose proof (si_bounds _ _ Hi _ _ Hin1) as (_ & _ & ?). lia.
      * exact (si_disj _ _ Hi _ _ _ _ Hin1 Hin2).
    + intros h b [[= <- <-]|Hin].
      * unfold SB_USER. rewrite load_store_other by (unfold SB_BIN; lia).
        apply load_store_same; [lia|]. unfold bin, SMALL_BIN_COUNT in *.
        split; [lia|]. apply Z.lt_trans with 4; [lia|reflexivity].
      * pose proof (chunk_size_ge b).
        rewrite (Hold h b SB_BIN Hin) by (unfold SB_BIN; lia).
        exact (si_bin _ _ Hi _ _ Hin).
    + intros h b [[= <- <-]|Hin].
      * left. unfold SB_USER, SB_BIN, SFB_NEXT.
        rewrite !load_store_other by lia.
        apply load_memset0_inside; lia.
      * pose proof (chunk_size_ge b).
        rewrite (Hold h b SFB_NEXT Hin) by (unfold SFB_NEXT; lia).
        destruct (si_link _ _ Hi _ _ Hin) as [E|E]; [left; exact E | right; right; exact E].
    + intros i Hi4. destruct (si_heads _ _ Hi i Hi4) as [E|E]; [left; exact E|].
      right. right. exact E.
  - (* pop the head of the bin *)
    apply Z.eqb_neq in Eh.
    rewrite allocateSmall_pop by (unfold bin in *; lia).
    fold bin. simpl.
    set (hd := head_of (ss_heads s) bin) in *.
    assert (Hhd : In (hd, bin) cs).
    { destruct (si_heads _ _ Hi bin Hb) as [E|E]; [contradiction | exact E]. }
    constructor; simpl.
    + exact Hbrk.
    + unfold set_head. rewrite list_set_length. exact Hlen.
    + exact (si_bounds _ _ Hi).
    + exact (si_disj _ _ Hi).
    + intros h b Hin. unfold SB_USER, SB_BIN.
      rewrite (field_untouched s cs hd bin h b 8 0) by (auto; lia).
      exact (si_bin _ _ Hi _ _ Hin).
    + intros h b Hin. unfold SB_USER, SFB_NEXT.
      rewrite (field_untouched s cs hd bin h b 8 16) by (auto; lia).
      exact (si_link _ _ Hi _ _ Hin).
    + intros i Hi4.
      rewrite head_of_set by (unfold SMALL_BIN_COUNT in *; lia).
      destruct (i =? bin) eqn:E.
      * apply Z.eqb_eq in E. subst i. exact (si_link _ _ Hi _ _ Hhd).
      * exact (si_heads _ _ Hi i Hi4).
Qed.

Lemma small_inv_reach init s cs :
  0 < ss_brk init <= W64 -> ss_heads init = [0; 0; 0; 0] ->
  small_reach init s cs -> small_inv s cs.
Proof.
  intros Hbrk Hheads Hr. induction Hr as [|s cs s' cs' Hr IH Hstep].
  - constructor.
    + exact Hbrk.
    + rewrite Hheads. reflexivity.
    + intros h b [].
    + intros h1 b1 h2 b2 [].
    + intros h b [].
    + intros h b [].
    + intros i Hi. left. rewrite Hheads. unfold head_of.
      destruct (Z.to_nat i) as [|[|[|[|k]]]]; simpl; try reflexivity. destruct k; reflexivity.
  - inversion Hstep; subst.
    + apply small_inv_alloc; assumption.
    + eapply small_inv_free; eassumption.
Qed.

(** C9. From an empty cache, along any run of [allocateSmall] and
    [freeSmall] steps: every chunk's header still holds, in [binIndex], the
    bin it was created for (the pop path writes only [userSize], a free only
    the link at offset 16, a fresh chunk lies above all older ones); freeing
    a chunk's payload pointer pushes the chunk onto exactly that bin and
    leaves the other bins alone; and every pointer [allocateSmall] returns
    for a small size is the payload of a recorded chunk. *)
Theorem small_block_bin_index_preserved init s cs :
  0 < ss_brk init <= W64 -> ss_heads init = [0; 0; 0; 0] ->
  small_reach init s cs ->
  (forall h b, In (h, b) cs -> load (ss_mem s) (h + SB_BIN) 8 = b) /\
  (forall h b, In (h, b) cs ->
     head_of (ss_heads (freeSmall (h + SIZEOF_SMALLHDR) s)) b = h /\
     forall i, i <> b -> 0 <= i ->
       head_of (ss_heads (freeSmall (h + SIZEOF_SMALLHDR) s)) i = head_of (ss_heads s) i) /\
  (forall n, 0 <= findBin n ->
     exists b, In (fst (allocateSmall n s) - SIZEOF_SMALLHDR, b) (alloc_ghost n s cs)).
Proof.
  intros Hbrk Hheads Hr.
  pose proof (small_inv_reach _ _ _ Hbrk Hheads Hr) as Hi.
  split; [exact (si_bin _ _ Hi)|]. split.
  - intros h b Hin. rewrite (freeSmall_chunk _ _ _ _ Hi Hin). simpl.
    pose proof (si_bounds _ _ Hi _ _ Hin) as (Hb & _ & _).
    pose proof (si_len _ _ Hi) as Hlen.
    split.
    + rewrite head_of_set by (unfold SMALL_BIN_COUNT in *; lia). rewrite Z.eqb_refl. reflexivity.
    + intros i Hne Hi0. rewrite head_of_set by (unfold SMALL_BIN_COUNT in *; lia).
      apply Z.eqb_neq in Hne. rewrite Hne. reflexivity.
  - intros n Hb. pose proof (findBin_range n) as Hr4.
    rewrite alloc_ghost_small by exact Hb.
    destruct (head_of (ss_heads s) (findBin n) =? 0) eqn:Eh.
    + apply Z.eqb_eq in Eh. rewrite allocateSmall_fresh by assumption. simpl.
      exists (findBin n). left. f_equal. lia.
    + apply Z.eqb_neq in Eh. rewrite allocateSmall_pop by assumption. simpl.
      exists (findBin n).
      replace (head_of (ss_heads s) (findBin n) + SIZEOF_SMALLHDR - SIZEOF_SMALLHDR)
        with (head_of (ss_heads s) (findBin n)) by lia.
      destruct (si_heads _ _ Hi (findBin n) ltac:(lia)) as [E|E]; [contradiction | exact E].
Qed.

Definition small_init : SS := mkSS zero_mem 4096 [0; 0; 0; 0] stats0.

(** Allocate 40 bytes (a fresh 80-byte chunk at 4096 in bin 1), free it,
    allocate 40 bytes again (the chunk is popped). *)
Definition small_s1 : SS := snd (allocateSmall 40 small_init).
Definition small_cs1 : list (Z * Z) := alloc_ghost 40 small_init [].
Definition small_s2 : SS := freeSmall (4096 + SIZEOF_SMALLHDR) small_s1.
Definition small_s3 : SS := snd (allocateSmall 40 small_s2).
Definition small_cs3 : list (Z * Z) := alloc_ghost 40 small_s2 small_cs1.

Lemma small_block_bin_index_preserved_witness :
  small_reach small_init small_s3 small_cs3 /\
  load (ss_mem small_s3) (4096 + SB_BIN) 8 = 1.
Proof.
  assert (Hin1 : In (4096, 1) small_cs1) by (vm_compute; left; reflexivity).
  assert (Hr : small_reach small_init small_s3 small_cs3).
  { unfold small_s3, small_cs3.
    apply reach_step with small_s2 small_cs1.
    - unfold small_s2.
      apply reach_step with small_s1 small_cs1.
      + unfold small_s1, small_cs1. apply reach_step with small_init [].
        * apply reach_init.
        * apply step_alloc. vm_compute. discriminate.
      + apply (step_free 4096 1). exact Hin1.
    - apply step_alloc. vm_compute. discriminate. }
  split; [exact Hr|].
  assert (Hin3 : In (4096, 1) small_cs3) by (vm_compute; left; reflexivity).
  destruct (small_block_bin_index_preserved small_init small_s3 small_cs3
              ltac:(vm_compute; split; [reflexivity | discriminate]) eq_refl Hr) as (Hbin & _ & _).
  exact (Hbin _ _ Hin3).
Defined.

(** * Further properties of the arena, the cache, the dispatcher and the manager *)

(** ** The reclamation pass of [bgLoop] *)

Lemma destroy_delete_once ar released :
  memory_ ar <> 0 -> destroy_delete ar released = released ++ [memory_ ar].
Proof.
  intros H. unfold destroy_delete, destroy, Arena_dtor.
  apply Z.eqb_neq in H. rewrite H. simpl. reflexivity.
Qed.

Lemma erase_at_split {A} (l : list A) i :
  (i < length l)%nat -> erase_at i l = firstn i l ++ skipn (S i) l.
Proof.
  revert i. induction l as [|x l IH]; intros i Hi; simpl in Hi; [lia|].
  destruct i as [|i]; simpl; [reflexivity|]. rewrite IH by lia. reflexivity.
Qed.

Lemma erase_at_length {A} (l : list A) i :
  (i < length l)%nat -> length (erase_at i l) = pred (length l).
Proof.
  revert i. induction l as [|x l IH]; intros i Hi; simpl in Hi; [lia|].
  destruct i as [|i]; simpl; [reflexivity|]. rewrite IH by lia. destruct l; simpl in *; lia.
Qed.

Lemma skipn_nth_error {A} (l : list A) i a :
  nth_error l i = Some a -> skipn i l = a :: skipn (S i) l.
Proof.
  revert i. induction l as [|x l IH]; intros i H; destruct i; simpl in *; try discriminate.
  - inversion H; reflexivity.
  - apply IH. exact H.
Qed.

Lemma firstn_nth_error {A} (l : list A) i a :
  nth_error l i = Some a -> firstn (S i) l = firstn i l ++ [a].
Proof.
  revert i. induction l as [|x l IH]; intros i H; destruct i; simpl in *; try discriminate.
  - inversion H; reflexivity.
  - rewrite (IH i H). reflexivity.
Qed.

Lemma erase_at_In {A} (l : list A) i a : In a (erase_at i l) -> In a l.
Proof.
  revert i. induction l as [|x l IH]; intros i H; destruct i; simpl in *; auto.
  destruct H; auto. right. eapply IH; eauto.
Qed.

Lemma reclaim_loop_spec fuel : forall i arenas released,
  (forall a, In a arenas -> memory_ a <> 0) ->
  (i <= length arenas)%nat -> (length arenas - i <= fuel)%nat ->
  reclaim_loop fuel i arenas released =
  (firstn i arenas ++ filter (fun a => negb (fullyFree a)) (skipn i arenas),
   released ++ map memory_ (filter fullyFree (skipn i arenas))).
Proof.
  induction fuel as [|fuel IH]; intros i arenas released Hmem Hi Hf; simpl.
  - assert (i = length arenas) by lia. subst i.
    rewrite firstn_all, skipn_all. simpl. rewrite !app_nil_r. reflexivity.
  - destruct (Nat.ltb_spec i (length arenas)) as [Hlt|Hge].
    + destruct (nth_error arenas i) as [ar|] eqn:E;
        [|apply nth_error_None in E; lia].
      rewrite (skipn_nth_error _ _ _ E).
      remember (skipn (S i) arenas) as rest eqn:Erest.
      assert (Har : In ar arenas) by (eapply nth_error_In; eauto).
      cbn [filter]. destruct (fullyFree ar) eqn:Ef; cbn [negb map].
      * rewrite IH.
        -- rewrite erase_at_split by exact Hlt.
           assert (Hlen : length (firstn i arenas) = i) by (rewrite length_firstn; lia).
           rewrite firstn_app, skipn_app, Hlen, Nat.sub_diag, firstn_O, skipn_O, app_nil_r.
           rewrite firstn_all2 by lia. rewrite skipn_all2 by lia.
           rewrite destroy_delete_once by auto. subst rest.
           rewrite <- app_assoc. reflexivity.
        -- intros a Ha. apply Hmem. eapply erase_at_In; eauto.
        -- rewrite erase_at_length by exact Hlt. lia.
        -- rewrite erase_at_length by exact Hlt. lia.
      * rewrite IH by (auto; lia). subst rest.
        rewrite (firstn_nth_error _ _ _ E), <- app_assoc. reflexivity.
    + rewrite firstn_all2, skipn_all2 by lia. simpl. rewrite !app_nil_r. reflexivity.
Qed.

(** X1: when every arena still owns its region, one reclamation pass of
    [bgLoop] keeps the arenas that are not fully free, in their order, and
    releases the region of each fully free arena once, in list order. *)
Theorem reclaim_pass_filters arenas released :
  (forall a, In a arenas -> memory_ a <> 0) ->
  reclaim_pass arenas released =
  (filter (fun a => negb (fullyFree a)) arenas,
   released ++ map memory_ (filter fullyFree arenas)).
Proof.
  intros Hmem. unfold reclaim_pass. rewrite reclaim_loop_spec by (auto; lia).
  reflexivity.
Qed.

(** ** What the arena helpers leave unchanged *)

Definition preserves {A} (R : AS -> AS -> Prop) (m : AM A) : Prop :=
  forall s a s', m s = Some (a, s') -> R s s'.

Definition same_frame (s s' : AS) : Prop :=
  as_stats s' = as_stats s /\ usedBytes_ (as_ar s') = usedBytes_ (as_ar s) /\
  memory_ (as_ar s') = memory_ (as_ar s) /\ arenaSize_ (as_ar s') = arenaSize_ (as_ar s).

Definition gap (s : AS) : Z := wrap64 (currentUsedBytes (as_stats s) - usedBytes_ (as_ar s)).

Definition acct (s s' : AS) : Prop :=
  memory_ (as_ar s') = memory_ (as_ar s) /\ arenaSize_ (as_ar s') = arenaSize_ (as_ar s) /\
  gap s' = gap s /\ peakUsedBytes (as_stats s) <= peakUsedBytes (as_stats s').

Lemma same_frame_refl s : same_frame s s.
Proof. unfold same_frame. auto. Qed.

Lemma same_frame_trans s1 s2 s3 : same_frame s1 s2 -> same_frame s2 s3 -> same_frame s1 s3.
Proof. unfold same_frame. intros (? & ? & ? & ?) (? & ? & ? & ?). repeat split; congruence. Qed.

Lemma acct_refl s : acct s s.
Proof. unfold acct. repeat split; lia. Qed.

Lemma acct_trans s1 s2 s3 : acct s1 s2 -> acct s2 s3 -> acct s1 s3.
Proof. unfold acct. intros (? & ? & ? & ?) (? & ? & ? & ?). repeat split; try congruence; lia. Qed.

Lemma preserves_bind {A B} (R : AS -> AS -> Prop) (m : AM A) (k : A -> AM B) :
  (forall s1 s2 s3, R s1 s2 -> R s2 s3 -> R s1 s3) ->
  preserves R m -> (forall a, preserves R (k a)) -> preserves R (bind m k).
Proof.
  intros Ht Hm Hk s b s' H. apply bind_Some in H as (a & s1 & H1 & H2).
  exact (Ht _ _ _ (Hm _ _ _ H1) (Hk _ _ _ _ H2)).
Qed.

Lemma preserves_ret {A} (R : AS -> AS -> Prop) (a : A) :
  (forall s, R s s) -> preserves R (ret a).
Proof. intros Hr s b s' H. inversion H. subst. apply Hr. Qed.

Lemma preserves_fail {A} (R : AS -> AS -> Prop) : preserves R (@fail A).
Proof. intros s b s' H. discriminate. Qed.

Lemma preserves_rd R a n : (forall s, R s s) -> preserves R (rd a n).
Proof. intros Hr s v s' H. apply rd_state in H. subst. apply Hr. Qed.

Lemma preserves_rd_bool R a : (forall s, R s s) -> preserves R (rd_bool a).
Proof. intros Hr s v s' H. apply rd_bool_state in H. subst. apply Hr. Qed.

Lemma preserves_get_ar R : (forall s, R s s) -> preserves R get_ar.
Proof. intros Hr s v s' H. inversion H. subst. apply Hr. Qed.

Lemma preserves_getFirstFree R : (forall s, R s s) -> preserves R getFirstFree.
Proof. intros Hr s v s' H. inversion H. subst. apply Hr. Qed.

Lemma preserves_getFooter R h : (forall s, R s s) -> preserves R (getFooter h).
Proof.
  intros Hr s v s' H. unfold getFooter in H. apply bind_Some in H as (t & s1 & H1 & H2).
  apply rd_state in H1. inversion H2. subst. apply Hr.
Qed.

Lemma same_frame_wr a n v : preserves same_frame (wr a n v).
Proof.
  intros s u s' H. unfold wr in H. destruct (in_region _ _ _); inversion H; subst.
  unfold same_frame. simpl. auto.
Qed.

Lemma same_frame_wr_bool a b : preserves same_frame (wr_bool a b).
Proof. apply same_frame_wr. Qed.

Lemma same_frame_setFirstFree p : preserves same_frame (setFirstFree p).
Proof. intros s u s' H. inversion H. subst. unfold same_frame. simpl. auto. Qed.

Lemma same_frame_acct {A} (m : AM A) : preserves same_frame m -> preserves acct m.
Proof.
  intros H s a s' E. destruct (H _ _ _ E) as (Hs & Hu & Hm & Hz).
  unfold acct, gap. rewrite Hs, Hu, Hm, Hz. repeat split; lia.
Qed.

Create HintDb frame.
#[local] Hint Resolve same_frame_refl same_frame_trans acct_refl acct_trans : frame.
#[local] Hint Resolve preserves_ret preserves_fail preserves_rd preserves_rd_bool
  preserves_get_ar preserves_getFirstFree preserves_getFooter : frame.
#[local] Hint Resolve same_frame_wr same_frame_wr_bool same_frame_setFirstFree : frame.

Ltac frame_step :=
  match goal with
  | |- preserves _ (bind _ _) =>
      apply preserves_bind; [solve [eauto with frame] | | intros ?]
  | |- preserves _ (if ?b then _ else _) => destruct b
  | |- preserves _ (match ?x with _ => _ end) => destruct x
  | |- preserves _ (let _ := _ in _) => cbv zeta
  | |- preserves _ ((fun _ => _) _) => cbv beta
  | |- _ => solve [eauto with frame]
  end.

Lemma remove_loop_frame fuel : forall prev cur h,
  preserves same_frame (remove_loop fuel prev cur h).
Proof. induction fuel as [|fuel IH]; intros; simpl; repeat frame_step. Qed.
#[local] Hint Resolve remove_loop_frame : frame.

Lemma removeFreeBlock_frame h : preserves same_frame (removeFreeBlock h).
Proof. unfold removeFreeBlock. repeat frame_step. Qed.
#[local] Hint Resolve removeFreeBlock_frame : frame.

Lemma fwdProbe_frame blk : preserves same_frame (fwdProbe blk).
Proof. unfold fwdProbe. repeat frame_step. Qed.
Lemma bwdProbe_frame blk : preserves same_frame (bwdProbe blk).
Proof. unfold bwdProbe. repeat frame_step. Qed.
#[local] Hint Resolve fwdProbe_frame bwdProbe_frame : frame.

Lemma coalesceForward_frame blk : preserves same_frame (coalesceForward blk).
Proof. unfold coalesceForward. repeat frame_step. Qed.
Lemma coalesceBackward_frame blk : preserves same_frame (coalesceBackward blk).
Proof. unfold coalesceBackward. repeat frame_step. Qed.

Lemma wrap64_shift a b n : wrap64 (wrap64 (a + n) - wrap64 (b + n)) = wrap64 (a - b).
Proof.
  unfold wrap64. rewrite <- Zminus_mod. f_equal. lia.
Qed.

Lemma updatePeak_current st : currentUsedBytes (updatePeak st) = currentUsedBytes st.
Proof. unfold updatePeak. destruct (_ >? _); reflexivity. Qed.

Lemma updatePeak_peak_ge st : peakUsedBytes st <= peakUsedBytes (updatePeak st).
Proof.
  unfold updatePeak. destruct (currentUsedBytes st >? peakUsedBytes st) eqn:E; simpl; [|lia].
  apply Z.gtb_lt in E. lia.
Qed.

Lemma updatePeak_ge st : currentUsedBytes (updatePeak st) <= peakUsedBytes (updatePeak st).
Proof.
  unfold updatePeak. destruct (currentUsedBytes st >? peakUsedBytes st) eqn:E; simpl; [lia|].
  rewrite Z.gtb_ltb in E. apply Z.ltb_ge in E. lia.
Qed.

Lemma acct_alloc_pair {A} n (k : AM A) :
  preserves acct k ->
  preserves acct (addUsed n ;;; modify_stats (fun st => updatePeak (addCurrent st n)) ;;; k).
Proof.
  intros Hk s a s' H.
  apply bind_Some in H as (u & s1 & H1 & H). apply bind_Some in H as (u' & s2 & H2 & H).
  apply acct_trans with s2; [|exact (Hk _ _ _ H)].
  cbv [addUsed modify_ar modify_stats] in H1, H2. inversion H1; subst. inversion H2; subst.
  unfold acct, gap. simpl. rewrite updatePeak_current. simpl.
  split; [reflexivity|]. split; [reflexivity|]. split.
  - apply wrap64_shift.
  - pose proof (updatePeak_peak_ge (addCurrent (as_stats s) n)). simpl in *. lia.
Qed.

Lemma acct_free_pair {A} n (k : AM A) :
  preserves acct k ->
  preserves acct (subUsed n ;;; modify_stats (fun st => subCurrent st n) ;;; k).
Proof.
  intros Hk s a s' H.
  apply bind_Some in H as (u & s1 & H1 & H). apply bind_Some in H as (u' & s2 & H2 & H).
  apply acct_trans with s2; [|exact (Hk _ _ _ H)].
  cbv [subUsed modify_ar modify_stats] in H1, H2. inversion H1; subst. inversion H2; subst.
  unfold acct, gap. simpl.
  split; [reflexivity|]. split; [reflexivity|]. split; [|lia].
  replace (currentUsedBytes (as_stats s) - n) with (currentUsedBytes (as_stats s) + - n) by lia.
  replace (usedBytes_ (as_ar s) - n) with (usedBytes_ (as_ar s) + - n) by lia.
  apply wrap64_shift.
Qed.

Lemma acct_addAllocCall : preserves acct (modify_stats addAllocCall).
Proof. intros s u s' H. inversion H; subst. unfold acct, gap. simpl. repeat split; lia. Qed.

Lemma acct_addFreeCall : preserves acct (modify_stats addFreeCall).
Proof. intros s u s' H. inversion H; subst. unfold acct, gap. simpl. repeat split; lia. Qed.

#[local] Hint Resolve acct_addAllocCall acct_addFreeCall : frame.
#[local] Hint Resolve coalesceForward_frame coalesceBackward_frame : frame.
#[local] Hint Extern 2 (preserves acct _) => apply same_frame_acct : frame.

Ltac acct_step :=
  match goal with
  | |- preserves acct (bind (addUsed _) _) => apply acct_alloc_pair
  | |- preserves acct (bind (subUsed _) _) => apply acct_free_pair
  | |- _ => frame_step
  end.

Lemma alloc_take_acct prev cur reqSize padding :
  preserves acct (alloc_take prev cur reqSize padding).
Proof. unfold alloc_take. repeat acct_step. Qed.
#[local] Hint Resolve alloc_take_acct : frame.

Lemma alloc_loop_acct fuel : forall prev cur reqSize alignment,
  preserves acct (alloc_loop fuel prev cur reqSize alignment).
Proof. induction fuel as [|fuel IH]; intros; simpl; repeat acct_step. Qed.
#[local] Hint Resolve alloc_loop_acct : frame.

Lemma Arena_allocate_acct reqSize alignment : preserves acct (Arena_allocate reqSize alignment).
Proof. unfold Arena_allocate. repeat acct_step. Qed.

Lemma Arena_deallocate_acct userPtr : preserves acct (Arena_deallocate userPtr).
Proof. unfold Arena_deallocate. repeat acct_step. Qed.

(** X3: [Arena::allocate] and [Arena::deallocate] keep the region fixed,
    change the arena's [usedBytes_] and the gauge [currentUsedBytes] by the
    same amount (mod 2^64), and never lower [peakUsedBytes]. *)
Theorem arena_methods_acct reqSize alignment userPtr :
  preserves acct (Arena_allocate reqSize alignment) /\
  preserves acct (Arena_deallocate userPtr).
Proof. split; [apply Arena_allocate_acct | apply Arena_deallocate_acct]. Qed.

(** ** The pointer returned by [Arena::allocate] *)

Definition post {A} (Q : A -> AS -> Prop) (m : AM A) : Prop :=
  forall s a s', m s = Some (a, s') -> Q a s'.

Lemma post_bind {A B} (Q : B -> AS -> Prop) (m : AM A) (k : A -> AM B) :
  (forall a, post Q (k a)) -> post Q (bind m k).
Proof. intros Hk s b s' H. apply bind_Some in H as (a & s1 & _ & H2). exact (Hk _ _ _ _ H2). Qed.

Lemma post_stats_ret {A} (Q : A -> AS -> Prop) f (a : A) :
  (forall s, Q a (mkAS (as_mem s) (as_ar s) (f (as_stats s)))) ->
  post Q (modify_stats f ;;; ret a).
Proof. intros H s b s' E. cbv [bind modify_stats ret] in E. inversion E. subst. apply H. Qed.



Lemma alloc_take_post prev cur reqSize padding :
  post (fun r s => r = Some (cur + SIZEOF_HDR + padding) /\
                   currentUsedBytes (as_stats s) <= peakUsedBytes (as_stats s))
       (alloc_take prev cur reqSize padding).
Proof.
  unfold alloc_take. cbv zeta.
  repeat (first [ apply post_stats_ret | apply post_bind; intros ? ]).
  intros s. simpl. split; [reflexivity | apply updatePeak_ge].
Qed.

(** A successful first-fit walk ends in the success branch at a block whose
    aligned user pointer std::align produced. *)
Lemma alloc_loop_success fuel : forall prev cur reqSize alignment s p s',
  alloc_loop fuel prev cur reqSize alignment s = Some (Some p, s') ->
  exists prev' cur' space aligned space' s1,
    std_align alignment reqSize (cur' + SIZEOF_HDR) space = Some (aligned, space') /\
    alloc_take prev' cur' reqSize (aligned - (cur' + SIZEOF_HDR)) s1 = Some (Some p, s').
Proof.
  induction fuel as [|fuel IH]; intros prev cur reqSize alignment s p s' H;
    simpl in H; [discriminate|].
  destruct (cur =? 0); [discriminate|].
  apply bind_Some in H as (isFree & s1 & _ & H).
  apply bind_Some in H as (ts & s2 & _ & H).
  cbv zeta in H.
  assert (Hnext : forall s0, bind (rd (cur + FB_NEXT) 8)
                     (fun nxt => alloc_loop fuel cur nxt reqSize alignment) s0
                   = Some (Some p, s') -> exists prev' cur' space aligned space' s1,
    std_align alignment reqSize (cur' + SIZEOF_HDR) space = Some (aligned, space') /\
    alloc_take prev' cur' reqSize (aligned - (cur' + SIZEOF_HDR)) s1 = Some (Some p, s')).
  { intros s0 H0. apply bind_Some in H0 as (nxt & s3 & _ & H0). exact (IH _ _ _ _ _ _ _ H0). }
  destruct (isFree && _); [|exact (Hnext _ H)].
  destruct (std_align _ _ _ _) as [[aligned sp]|] eqn:Ea; [|exact (Hnext _ H)].
  destruct (ts >=? _); [|exact (Hnext _ H)].
  exists prev, cur, (wrap64 (ts - (SIZEOF_HDR + SIZEOF_FTR))), aligned, sp, s2. auto.
Qed.

Lemma land_neg_pow2 x k : 0 <= k -> Z.land x (- 2 ^ k) = x / 2 ^ k * 2 ^ k.
Proof.
  intros Hk.
  replace (- 2 ^ k) with (Z.lnot (Z.ones k)).
  - rewrite <- Z.ldiff_land, Z.ldiff_ones_r by exact Hk.
    rewrite Z.shiftl_mul_pow2, Z.shiftr_div_pow2 by exact Hk. reflexivity.
  - rewrite Z.ones_equiv. pose proof (Z.add_lnot_diag (Z.pred (2 ^ k))). lia.
Qed.

Lemma std_align_spec k size ptr space aligned space' :
  0 <= k -> std_align (2 ^ k) size ptr space = Some (aligned, space') ->
  aligned mod 2 ^ k = 0 /\ ptr <= aligned < ptr + 2 ^ k /\
  aligned + size <= ptr + space /\ space' = space - (aligned - ptr).
Proof.
  intros Hk H. unfold std_align in H.
  destruct (space <? size) eqn:E1; [discriminate|].
  cbv zeta in H.
  destruct (Z.land (ptr - 1 + 2 ^ k) (- 2 ^ k) - ptr >? space - size) eqn:E2; [discriminate|].
  inversion H; subst aligned space'. clear H.
  rewrite Z.gtb_ltb in E2. apply Z.ltb_ge in E2.
  rewrite land_neg_pow2 in * by exact Hk.
  assert (Hp : 0 < 2 ^ k) by (apply Z.pow_pos_nonneg; lia).
  pose proof (Z.mod_pos_bound (ptr - 1 + 2 ^ k) (2 ^ k) Hp).
  pose proof (Z.div_mod (ptr - 1 + 2 ^ k) (2 ^ k) ltac:(lia)).
  split; [apply Z.mod_mul; lia|]. split; [lia|]. split; lia.
Qed.

(** X6: a pointer returned by [Arena::allocate] with a power-of-two
    alignment is a multiple of it, and afterwards the current gauge does not
    exceed the peak. *)
Theorem Arena_allocate_result reqSize k s p s' :
  0 <= k -> Arena_allocate reqSize (2 ^ k) s = Some (Some p, s') ->
  p mod 2 ^ k = 0 /\
  currentUsedBytes (as_stats s') <= peakUsedBytes (as_stats s').
Proof.
  intros Hk H. unfold Arena_allocate in H.
  apply bind_Some in H as (u & s1 & _ & H). apply bind_Some in H as (ar & s2 & _ & H).
  apply alloc_loop_success in H as (prev & cur & space & aligned & space' & s3 & Ha & Ht).
  apply std_align_spec in Ha as (Hmod & _); [|exact Hk].
  destruct (alloc_take_post _ _ _ _ _ _ _ Ht) as (Hp & Hpk).
  inversion Hp. subst p. split; [|exact Hpk].
  replace (cur + SIZEOF_HDR + (aligned - (cur + SIZEOF_HDR))) with aligned by lia. exact Hmod.
Qed.

(** ** Frees that [Arena::deallocate] rejects *)

(** X7: [Arena::deallocate(nullptr)] changes nothing; a pointer whose header
    lacks the magic or is already flagged free only counts a free call:
    memory and arena are unchanged. *)
Theorem Arena_deallocate_rejected userPtr s u s' :
  Arena_deallocate userPtr s = Some (u, s') ->
  (userPtr = 0 -> s' = s) /\
  (userPtr <> 0 ->
   load (as_mem s) (userPtr - SIZEOF_HDR + HDR_MAGIC) 4 <> MAGIC \/
   load (as_mem s) (userPtr - SIZEOF_HDR + HDR_FREE) 1 <> 0 ->
   as_mem s' = as_mem s /\ as_ar s' = as_ar s /\ as_stats s' = addFreeCall (as_stats s)).
Proof.
  intros H. unfold Arena_deallocate in H.
  destruct (Z.eqb_spec userPtr 0) as [->|Hnz].
  { split; [intros _; inversion H; reflexivity | intros []; reflexivity]. }
  split; [intros E; contradiction|]. intros _ Hbad.
  apply bind_Some in H as (u1 & s1 & H1 & H).
  cbv [modify_stats] in H1. injection H1 as _ Es1.
  apply bind_Some in H as (mg & s2 & Hm & H).
  pose proof Hm as Hm'. apply rd_state in Hm'. subst s2.
  unfold rd in Hm. destruct (in_region _ _ _); [|discriminate]. injection Hm as <-.
  subst s1. simpl in H.
  apply bind_Some in H as (fr & s3 & Hf & H).
  destruct (Z.eqb_spec (load (as_mem s) (userPtr - SIZEOF_HDR + HDR_MAGIC) 4) MAGIC) as [Em|Em].
  - destruct Hbad as [Hbad|Hbad]; [contradiction|].
    pose proof Hf as Hf'. apply rd_bool_state in Hf'. subst s3.
    unfold rd_bool, bind, rd in Hf. simpl in Hf.
    destruct (in_region _ _ _); [|discriminate].
    unfold ret in Hf. injection Hf as <-.
    apply Z.eqb_neq in Hbad. rewrite Hbad in H. simpl in H. unfold ret in H.
    injection H as _ <-. auto.
  - unfold ret in Hf. injection Hf as <- <-. simpl in H. injection H as _ <-. auto.
Qed.

(** ** The constructor [Arena::Arena] *)

Lemma load_store_hit m a n v x :
  x = a -> 0 <= n -> 0 <= v < 256 ^ n -> load (store m a n v) x n = v.
Proof. intros -> Hn Hv. apply load_store_same; assumption. Qed.

Ltac layout := unfold HDR_MAGIC, HDR_TOTAL, HDR_USER, HDR_FREE, FB_NEXT, SIZEOF_HDR,
  SIZEOF_FTR, FTR_MAGIC, FTR_TOTAL, FTR_FREE, SB_BIN, SB_USER, SFB_NEXT, SIZEOF_SMALLHDR,
  SIZEOF_FREEBLOCK, MAGIC in *.

Ltac peel :=
  repeat first
    [ rewrite load_store_hit by (layout; rewrite ?W64_pow in *; lia)
    | rewrite load_store_other by (layout; lia) ].

Lemma Arena_new_layout m brk N :
  64 <= N < W64 ->
  let '(m', ar, brk') := Arena_new m brk N in
  ar = mkArena brk N 0 brk /\ brk' = brk + round16 N /\
  wf_arena (mkAS m' ar stats0) [N] /\
  load m' (brk + HDR_MAGIC) 4 = MAGIC /\ load m' (brk + HDR_USER) 8 = 0 /\
  load m' (brk + HDR_FREE) 1 = 1 /\ load m' (brk + FB_NEXT) 8 = 0 /\
  load m' (brk + N - SIZEOF_FTR + FTR_MAGIC) 4 = MAGIC /\
  load m' (brk + N - SIZEOF_FTR + FTR_FREE) 1 = 1.
Proof.
  intros HN. rewrite W64_pow in HN.
  unfold Arena_new, operator_new. cbv zeta.
  assert (Htot : load (store (store (store (store (store (memset0 m brk N)
            (brk + HDR_MAGIC) 4 MAGIC) (brk + HDR_TOTAL) 8 N) (brk + HDR_USER) 8 0)
            (brk + HDR_FREE) 1 1) (brk + FB_NEXT) 8 0) (brk + HDR_TOTAL) 8 = N).
  { peel. reflexivity. }
  rewrite Htot. clear Htot.
  split; [reflexivity|]. split; [reflexivity|].
  split; [split; [|simpl; lia]|].
  { simpl. split; [|exact I]. unfold tile_at.
    split; [layout; lia|]. split; peel; reflexivity. }
  repeat split; peel; reflexivity.
Qed.

(** ** Chunks of the small-block cache *)

Lemma round16_mod n : round16 n mod 16 = 0.
Proof. unfold round16. apply Z.mod_mul. lia. Qed.

Lemma findBin_fits n : 0 <= findBin n -> n <= SMALL_BIN_SIZE (findBin n).
Proof.
  unfold findBin. destruct (Z.leb_spec n (SMALL_BIN_SIZE 0)); [auto|].
  destruct (Z.leb_spec n (SMALL_BIN_SIZE 1)); [auto|].
  destruct (Z.leb_spec n (SMALL_BIN_SIZE 2)); [auto|].
  destruct (Z.leb_spec n (SMALL_BIN_SIZE 3)); [auto|lia].
Qed.

Lemma findBin_smallest n j : 0 <= j < findBin n -> SMALL_BIN_SIZE j < n.
Proof.
  unfold findBin. intros Hj.
  destruct (Z.leb_spec n (SMALL_BIN_SIZE 0)); [lia|].
  destruct (Z.leb_spec n (SMALL_BIN_SIZE 1)); [assert (j = 0) by lia; subst; auto|].
  destruct (Z.leb_spec n (SMALL_BIN_SIZE 2));
    [assert (j = 0 \/ j = 1) as [-> | ->] by lia; auto|].
  destruct (Z.leb_spec n (SMALL_BIN_SIZE 3));
    [assert (j = 0 \/ j = 1 \/ j = 2) as [-> | [-> | ->]] by lia; auto | lia].
Qed.

Lemma small_aligned_reach init s cs :
  0 < ss_brk init <= W64 -> ss_heads init = [0; 0; 0; 0] ->
  ss_brk init mod 16 = 0 -> small_reach init s cs ->
  ss_brk s mod 16 = 0 /\ forall h b, In (h, b) cs -> h mod 16 = 0.
Proof.
  intros Hbrk Hheads H0 Hr. induction Hr as [|s cs s' cs' Hr IH Hstep].
  - split; [exact H0 | intros h b []].
  - destruct IH as [Hb Hcs]. inversion Hstep; subst.
    + destruct (findBin_range n) as [Hneg|Hbin].
      * unfold allocateSmall, alloc_ghost. rewrite Hneg. simpl. auto.
      * destruct (Z.eqb_spec (head_of (ss_heads s) (findBin n)) 0) as [Eh|Eh].
        -- rewrite allocateSmall_fresh, alloc_ghost_small by (auto; lia).
           rewrite Eh, Z.eqb_refl. simpl. split.
           ++ rewrite Zplus_mod, Hb, round16_mod. reflexivity.
           ++ intros h b [[= <- _]|Hin]; eauto.
        -- rewrite allocateSmall_pop, alloc_ghost_small by (auto; lia).
           apply Z.eqb_neq in Eh. rewrite Eh. simpl. auto.
    + pose proof (small_inv_reach _ _ _ Hbrk Hheads Hr) as Hi.
      rewrite (freeSmall_chunk s cs' h b Hi H). simpl. auto.
Qed.

(** X10: in any run of the small cache from an empty cache at a 16-aligned
    break, a small allocation returns a 16-aligned pointer from the smallest
    bin that fits, whose chunk is recorded and overlaps no other chunk ever
    handed out. *)
Theorem allocateSmall_chunk init s cs n :
  0 < ss_brk init <= W64 -> ss_heads init = [0; 0; 0; 0] -> ss_brk init mod 16 = 0 ->
  small_reach init s cs -> ss_brk s + 272 <= W64 -> 0 <= findBin n ->
  let p := fst (allocateSmall n s) in
  p mod 16 = 0 /\
  n <= SMALL_BIN_SIZE (findBin n) /\
  (forall j, 0 <= j < findBin n -> SMALL_BIN_SIZE j < n) /\
  In (p - SIZEOF_SMALLHDR, findBin n) (alloc_ghost n s cs) /\
  (forall h b, In (h, b) (alloc_ghost n s cs) -> h <> p - SIZEOF_SMALLHDR ->
     p - SIZEOF_SMALLHDR + chunk_size (findBin n) <= h \/
     h + chunk_size b <= p - SIZEOF_SMALLHDR).
Proof.
  intros Hbrk Hheads H16 Hr Hroom Hb p.
  pose proof (small_inv_reach _ _ _ Hbrk Hheads Hr) as Hi.
  destruct (small_aligned_reach _ _ _ Hbrk Hheads H16 Hr) as [Hal Hcs].
  pose proof (small_inv_alloc _ _ n Hi Hroom) as Hi'.
  assert (Hin : In (p - SIZEOF_SMALLHDR, findBin n) (alloc_ghost n s cs)).
  { unfold p. rewrite alloc_ghost_small by exact Hb.
    destruct (Z.eqb_spec (head_of (ss_heads s) (findBin n)) 0) as [Eh|Eh].
    - rewrite allocateSmall_fresh by assumption. simpl. left. f_equal. lia.
    - rewrite allocateSmall_pop by assumption. simpl.
      replace (head_of (ss_heads s) (findBin n) + SIZEOF_SMALLHDR - SIZEOF_SMALLHDR)
        with (head_of (ss_heads s) (findBin n)) by lia.
      pose proof (findBin_range n).
      destruct (si_heads _ _ Hi (findBin n) ltac:(lia)) as [E|E]; [contradiction | exact E]. }
  split.
  - assert (Hh : (p - SIZEOF_SMALLHDR) mod 16 = 0).
    { unfold p in Hin |- *. rewrite alloc_ghost_small in Hin by exact Hb.
      destruct (head_of (ss_heads s) (findBin n) =? 0) eqn:Eh.
      + apply Z.eqb_eq in Eh. rewrite allocateSmall_fresh in Hin |- * by assumption.
        simpl in *. replace (ss_brk s + SIZEOF_SMALLHDR - SIZEOF_SMALLHDR) with (ss_brk s) by lia.
        exact Hal.
      + exact (Hcs _ _ Hin). }
    replace p with (p - SIZEOF_SMALLHDR + 16) by (unfold SIZEOF_SMALLHDR; lia).
    rewrite Zplus_mod, Hh. reflexivity.
  - split; [apply findBin_fits; exact Hb|].
    split; [intros j Hj; apply findBin_smallest; exact Hj|].
    split; [exact Hin|].
    intros h b Hin2 Hne.
    destruct (si_disj _ _ Hi' _ _ _ _ Hin Hin2) as [[E _]|[E|E]]; [congruence|lia|lia].
Qed.

(** ** Dispatcher runs keep the thread's arena and the peak gauge *)

(** The thread's arena region, the peak gauge and the default arena size
    between two dispatcher states. *)
Definition fpta_frame (s s' : FPTA) : Prop :=
  (forall t, f_tld s = Some t -> exists t', f_tld s' = Some t' /\
     memory_ (tld_arena t') = memory_ (tld_arena t) /\
     arenaSize_ (tld_arena t') = arenaSize_ (tld_arena t)) /\
  peakUsedBytes (f_stats s) <= peakUsedBytes (f_stats s') /\
  defaultArenaSize_ s' = defaultArenaSize_ s.

Lemma fpta_frame_refl s : fpta_frame s s.
Proof. unfold fpta_frame. split; [eauto | lia]. Qed.

Lemma fpta_frame_trans s1 s2 s3 : fpta_frame s1 s2 -> fpta_frame s2 s3 -> fpta_frame s1 s3.
Proof.
  intros (H1 & P1 & D1) (H2 & P2 & D2). split; [|split; [lia | congruence]].
  intros t Ht. destruct (H1 t Ht) as (t2 & Ht2 & M2 & Z2).
  destruct (H2 t2 Ht2) as (t3 & Ht3 & M3 & Z3). exists t3. repeat split; congruence.
Qed.

Lemma getThreadData_frame s : fpta_frame s (snd (getThreadData s)).
Proof.
  unfold getThreadData. destruct (f_tld s) as [t|] eqn:E; simpl.
  - apply fpta_frame_refl.
  - unfold fpta_frame. simpl. split; [intros t Ht; congruence | split; [lia | reflexivity]].
Qed.

Lemma getThreadData_some s : exists t, f_tld (snd (getThreadData s)) = Some t /\
  fst (getThreadData s) = t.
Proof.
  unfold getThreadData. destruct (f_tld s) as [t|] eqn:E; simpl; [eauto|].
  destruct (Arena_new (f_mem s) (f_brk s) (defaultArenaSize_ s)) as [[m' a] brk']. simpl. eauto.
Qed.

Lemma run_small_frame {A} (f : SS -> A * SS) t s :
  f_tld s = Some t ->
  peakUsedBytes (ss_stats (mkSS (f_mem s) (f_brk s) (tld_heads t) (f_stats s))) <=
  peakUsedBytes (ss_stats (snd (f (mkSS (f_mem s) (f_brk s) (tld_heads t) (f_stats s))))) ->
  fpta_frame s (snd (run_small f t s)).
Proof.
  intros Ht Hp. unfold run_small.
  destruct (f (mkSS (f_mem s) (f_brk s) (tld_heads t) (f_stats s))) as [r ss'] eqn:E.
  try rewrite E in Hp. simpl in *.
  split; [|split; [exact Hp | reflexivity]].
  intros t0 Ht0. rewrite Ht in Ht0. injection Ht0 as <-.
  eexists; split; [reflexivity | simpl; auto].
Qed.

Lemma run_arena_frame {A} (f : AM A) t s r s' :
  f_tld s = Some t -> preserves acct f -> run_arena f t s = Some (r, s') -> fpta_frame s s'.
Proof.
  intros Ht Hf H. unfold run_arena in H.
  destruct (f _) as [[r0 a']|] eqn:E; [|discriminate]. injection H as <- <-.
  destruct (Hf _ _ _ E) as (Hm & Hz & _ & Hp). simpl in *.
  split; [|split; [exact Hp | reflexivity]].
  intros t0 Ht0. rewrite Ht in Ht0. injection Ht0 as <-.
  eexists; split; [reflexivity | simpl; auto].
Qed.

Lemma allocateSmall_peak n ss :
  peakUsedBytes (ss_stats ss) <= peakUsedBytes (ss_stats (snd (allocateSmall n ss))).
Proof.
  unfold allocateSmall. destruct (findBin n <? 0); simpl; [lia|].
  destruct (negb _); simpl; [lia|].
  pose proof (updatePeak_peak_ge (addCurrent (addAllocCall (ss_stats ss))
                (SIZEOF_SMALLHDR + SMALL_BIN_SIZE (findBin n)))). simpl in *. lia.
Qed.

Lemma freeSmall_peak p ss :
  peakUsedBytes (ss_stats ss) <= peakUsedBytes (ss_stats (freeSmall p ss)).
Proof.
  unfold freeSmall. destruct (p =? 0); [lia|]. destruct (_ || _); simpl; lia.
Qed.

Lemma allocate_frame n s p s' : allocate n s = Some (p, s') -> fpta_frame s s'.
Proof.
  unfold allocate. intros H.
  destruct (getThreadData s) as [t s1] eqn:Eg.
  pose proof (getThreadData_frame s) as F1. rewrite Eg in F1. simpl in F1.
  destruct (getThreadData_some s) as (t' & Ht & Ef). rewrite Eg in Ht, Ef. simpl in Ht, Ef. subst t'.
  apply fpta_frame_trans with s1; [exact F1|].
  destruct (_ <=? 256).
  - injection H as H. pose proof (f_equal snd H) as Hs. cbn [snd] in Hs. subst s'.
    apply run_small_frame; [exact Ht|]. apply allocateSmall_peak.
  - destruct (run_arena _ t s1) as [[r s2]|] eqn:Er; [|discriminate].
    assert (F2 : fpta_frame s1 s2).
    { eapply run_arena_frame; [exact Ht | | exact Er]. apply Arena_allocate_acct. }
    destruct r; injection H as _ <-; exact F2.
Qed.

Lemma deallocate_frame p s s' : deallocate p s = Some s' -> fpta_frame s s'.
Proof.
  unfold deallocate. intros H.
  destruct (p =? 0). { injection H as <-. apply fpta_frame_refl. }
  destruct (getThreadData s) as [t s1] eqn:Eg.
  pose proof (getThreadData_frame s) as F1. rewrite Eg in F1. simpl in F1.
  destruct (getThreadData_some s) as (t' & Ht & Ef). rewrite Eg in Ht, Ef. simpl in Ht, Ef. subst t'.
  apply fpta_frame_trans with s1; [exact F1|].
  destruct (marker_is_arena _ _).
  - destruct (run_arena _ t s1) as [[r s2]|] eqn:Er; [|discriminate].
    injection H as <-. eapply run_arena_frame; [exact Ht | | exact Er].
    apply Arena_deallocate_acct.
  - injection H as <-.
    apply (run_small_frame (fun ss => (tt, freeSmall p ss))); [exact Ht|]. apply freeSmall_peak.
Qed.


(** ** Regions handed out and released by the GlobalArenaManager *)

Inductive mgr_step : Mgr -> list Z -> Mgr -> list Z -> Prop :=
| mstep_bg g g' created :
    bgLoop_iter g = Some g' -> mgr_step g created g' created
| mstep_create m brk n g created :
    brk <> 0 -> mgr_step g created (snd (createArena m brk n g)) (created ++ [brk])
| mstep_use g arenas' created :
    map memory_ arenas' = map memory_ (arenas_ g) ->
    mgr_step g created
      (mkMgr arenas' (released_ g) (stopThread_ g) (enableReclamation_ g)) created.

Inductive mgr_reach (g0 : Mgr) : Mgr -> list Z -> Prop :=
| mreach_init : mgr_reach g0 g0 []
| mreach_step g created g' created' :
    mgr_reach g0 g created -> mgr_step g created g' created' -> mgr_reach g0 g' created'.

Definition mgr_inv (g : Mgr) (created : list Z) : Prop :=
  Permutation (released_ g ++ map memory_ (arenas_ g)) created /\
  forall a, In a (arenas_ g) -> memory_ a <> 0.

Lemma map_filter_split {A B} (f : A -> B) (p : A -> bool) l :
  Permutation (map f (filter p l) ++ map f (filter (fun a => negb (p a)) l)) (map f l).
Proof.
  induction l as [|x l IH]; simpl; [constructor|].
  destruct (p x); simpl.
  - constructor. exact IH.
  - apply Permutation_sym, Permutation_cons_app, Permutation_sym. exact IH.
Qed.

Lemma mgr_dtor_all arenas released :
  (forall a, In a arenas -> memory_ a <> 0) ->
  fold_left (fun r a => destroy_delete a r) arenas released = released ++ map memory_ arenas.
Proof.
  revert released. induction arenas as [|a arenas IH]; intros released Hm; simpl.
  - symmetry. apply app_nil_r.
  - rewrite destroy_delete_once by (apply Hm; left; reflexivity).
    rewrite IH by (intros b Hb; apply Hm; right; exact Hb). rewrite <- app_assoc. reflexivity.
Qed.

Lemma mgr_inv_step g c g' c' : mgr_inv g c -> mgr_step g c g' c' -> mgr_inv g' c'.
Proof.
  intros [Hp Hm] Hs. inversion Hs; subst.
  - unfold bgLoop_iter in H. destruct (stopThread_ g); [discriminate|].
    destruct (negb (enableReclamation_ g)); [injection H as <-; split; assumption|].
    unfold reclaim_pass in H. rewrite reclaim_loop_spec in H by (auto; lia). cbn [firstn skipn app] in H. injection H as <-. simpl. split.
    + cbn [released_ arenas_]. rewrite <- app_assoc. eapply Permutation_trans; [|exact Hp].
      apply Permutation_app_head. apply map_filter_split.
    + intros a Ha. apply filter_In in Ha as [Ha _]. auto.
  - unfold createArena, Arena_new, operator_new. cbn [snd released_ arenas_ memory_]. split.
    + cbv [released_ arenas_]. rewrite map_app, app_assoc. simpl. apply Permutation_app_tail. exact Hp.
    + intros a Ha. apply in_app_or in Ha as [Ha|[<-|[]]]; [auto | simpl; exact H].
  - unfold mgr_inv. cbn. split.
    + rewrite H. exact Hp.
    + intros a Ha. assert (Hin : In (memory_ a) (map memory_ (arenas_ g))).
      { rewrite <- H. apply in_map. exact Ha. }
      apply in_map_iff in Hin as (a0 & E & Ha0). rewrite <- E. auto.
Qed.

(** X2: starting from an empty manager, through any interleaving of
    [createArena], [bgLoop] wake-ups and arena use that keeps each arena's
    region, every region created is either released or still held, exactly
    once; the destructor then releases each created region exactly once. *)
Theorem mgr_releases_each_region_once g0 g created :
  arenas_ g0 = [] -> released_ g0 = [] -> mgr_reach g0 g created ->
  Permutation (released_ g ++ map memory_ (arenas_ g)) created /\
  Permutation (mgr_dtor g) created.
Proof.
  intros Ha Hr Hreach.
  assert (Hi : mgr_inv g created).
  { induction Hreach as [|g c g' c' Hreach IH Hs].
    - unfold mgr_inv. rewrite Ha, Hr. simpl. split; [constructor | intros a []].
    - eapply mgr_inv_step; eauto. }
  destruct Hi as [Hp Hm]. split; [exact Hp|].
  unfold mgr_dtor. rewrite mgr_dtor_all by exact Hm. exact Hp.
Qed.

(** ** [Arena::removeFreeBlock] on a well-formed free list *)

Fixpoint seg (m : mem) (p : Z) (L : list Z) (q : Z) : Prop :=
  match L with
  | [] => p = q
  | x :: L' => p = x /\ x <> 0 /\ seg m (load m (x + FB_NEXT) 8) L' q
  end.

Definition free_list (s : AS) (L : list Z) : Prop := seg (as_mem s) (firstFree_ (as_ar s)) L 0.

Definition nodes_ok (ar : Arena) (L : list Z) : Prop :=
  NoDup L /\
  (forall x, In x L -> 0 < x < W64 /\ in_region ar (x + FB_NEXT) 8 = true) /\
  (forall x y, In x L -> In y L -> x <> y -> x + 8 <= y \/ y + 8 <= x).

Lemma in_region_ff ar u f a n :
  in_region (mkArena (memory_ ar) (arenaSize_ ar) u f) a n = in_region ar a n.
Proof. reflexivity. Qed.

Lemma seg_store_other m a n v p L q :
  0 <= n -> (forall y, In y L -> y + FB_NEXT + 8 <= a \/ a + n <= y + FB_NEXT) ->
  seg m p L q -> seg (store m a n v) p L q.
Proof.
  revert p. induction L as [|x L IH]; intros p Hn Hd H; simpl in *; [exact H|].
  destruct H as (-> & Hx & H). split; [reflexivity|]. split; [exact Hx|].
  rewrite load_store_other by (lia || exact (Hd x (or_introl eq_refl))).
  apply IH; auto.
Qed.

Lemma seg_app m p L1 L2 q :
  seg m p (L1 ++ L2) q <-> exists r, seg m p L1 r /\ seg m r L2 q.
Proof.
  revert p. induction L1 as [|x L1 IH]; intros p; simpl.
  - split; [intros H; exists p; auto | intros (r & -> & H); exact H].
  - rewrite IH. split.
    + intros (-> & Hx & r & H1 & H2). exists r. auto.
    + intros (r & (-> & Hx & H1) & H2). eauto.
Qed.

Lemma seg_head m p L : seg m p L 0 -> p = 0 \/ In p L.
Proof. destruct L as [|x L]; simpl; [auto | intros (-> & _); auto]. Qed.

Lemma nodes_ok_sep ar L x y :
  nodes_ok ar L -> In x L -> In y L -> x <> y ->
  y + FB_NEXT + 8 <= x + FB_NEXT \/ x + FB_NEXT + 8 <= y + FB_NEXT.
Proof. intros (_ & _ & Hs) Hx Hy Hne. destruct (Hs x y Hx Hy Hne); [right|left]; unfold FB_NEXT; lia. Qed.

Lemma remove_loop_spec h fuel : forall R P prev cur s,
  seg (as_mem s) (firstFree_ (as_ar s)) P cur -> seg (as_mem s) cur R 0 ->
  (P = [] /\ prev = 0 \/ exists P0, P = P0 ++ [prev]) ->
  nodes_ok (as_ar s) (P ++ R) -> (length R < fuel)%nat ->
  exists s', remove_loop fuel prev cur h s = Some (tt, s') /\
    same_frame s s' /\
    free_list s' (P ++ remove Z.eq_dec h R) /\
    (In h R -> load (as_mem s') (h + FB_NEXT) 8 = 0) /\
    (~ In h R -> s' = s).
Proof.
  induction fuel as [|fuel IH]; intros R P prev cur s Hp Hr Hprev Hok Hlen; [lia|].
  destruct R as [|x R'].
  - simpl in Hr. subst cur. simpl. exists s. split; [reflexivity|].
    split; [apply same_frame_refl|]. split; [|split; [intros []|reflexivity]].
    unfold free_list. rewrite app_nil_r. exact Hp.
  - destruct Hr as (-> & Hx0 & Hr'). pose proof Hok as (Hnd & Hreg & _).
    assert (HxL : In x (P ++ x :: R')) by (apply in_or_app; right; left; reflexivity).
    destruct (Hreg x HxL) as [Hxr Hxreg].
    assert (HxR' : ~ In x R').
    { apply NoDup_remove_2 in Hnd. intros H. apply Hnd. apply in_or_app. right. exact H. }
    assert (HxP : ~ In x P).
    { apply NoDup_remove_2 in Hnd. intros H. apply Hnd. apply in_or_app. left. exact H. }
    cbn [remove_loop]. apply Z.eqb_neq in Hx0. rewrite Hx0.
    set (nxt := load (as_mem s) (x + FB_NEXT) 8) in *.
    assert (Hnxt : 0 <= nxt < 256 ^ 8).
    { rewrite <- W64_pow. destruct (seg_head _ _ _ Hr') as [E|E]; [rewrite E; split; [lia | reflexivity]|].
      assert (In nxt (P ++ x :: R')) by (apply in_or_app; right; right; exact E).
      destruct (Hreg nxt H) as [? _]. lia. }
    destruct (Z.eqb_spec x h) as [Exh|Hne]; cbv iota; unfold bind at 1; cbv beta; unfold rd at 1;
      rewrite Hxreg; cbv beta iota; fold nxt; [subst h|].
    + (* unlink [x] *)
      assert (Hdx : forall y, In y (P ++ R') ->
                y + FB_NEXT + 8 <= x + FB_NEXT \/ x + FB_NEXT + 8 <= y + FB_NEXT).
      { intros y Hy. apply (nodes_ok_sep _ _ x y Hok HxL).
        - apply in_app_or in Hy as [Hy|Hy]; apply in_or_app; [left | right; right]; exact Hy.
        - intros <-. apply in_app_or in Hy as [Hy|Hy]; contradiction. }
      assert (Hrem : remove Z.eq_dec x (x :: R') = R').
      { simpl. destruct (Z.eq_dec x x); [|congruence]. apply notin_remove. exact HxR'. }
      rewrite Hrem.
      destruct Hprev as [[-> ->]|[P0 ->]].
      * simpl in Hp. cbv [bind setFirstFree modify_ar wr]. simpl.
        rewrite in_region_ff, Hxreg.
        eexists. split; [reflexivity|]. split; [unfold same_frame; simpl; auto|].
        split; [|split].
        -- unfold free_list. simpl. apply seg_store_other; [lia| |exact Hr'].
           intros y Hy. apply Hdx. exact Hy.
        -- intros _. simpl. apply load_store_same; [lia | split; [lia | reflexivity]].
        -- intros H. exfalso. apply H. left. reflexivity.
      * assert (HprevL : In prev ((P0 ++ [prev]) ++ x :: R')).
        { apply in_or_app. left. apply in_or_app. right. left. reflexivity. }
        destruct (Hreg prev HprevL) as [Hpr Hpreg].
        assert (Hpx : prev <> x).
        { intros ->. apply HxP. apply in_or_app. right. left. reflexivity. }
        apply seg_app in Hp as (r & Hp0 & (-> & _ & Hpx')).
        assert (HpP0 : ~ In prev P0).
        { rewrite <- app_assoc in Hnd. apply NoDup_remove_2 in Hnd. intros H. apply Hnd.
          apply in_or_app. left. exact H. }
        assert (Hpz : (prev =? 0) = false) by (apply Z.eqb_neq; lia). rewrite Hpz.
        cbv [bind wr]. rewrite Hpreg. simpl. rewrite Hxreg.
        eexists. split; [reflexivity|]. split; [unfold same_frame; simpl; auto|].
        split; [|split].
        -- unfold free_list. simpl. rewrite <- app_assoc. apply seg_app. exists prev. split.
           ++ apply seg_store_other; [lia| |apply seg_store_other; [lia| |exact Hp0]].
              ** intros y Hy. apply Hdx. apply in_or_app. left. apply in_or_app. left. exact Hy.
              ** intros y Hy. apply (nodes_ok_sep _ _ prev y Hok HprevL).
                 { apply in_or_app. left. apply in_or_app. left. exact Hy. }
                 intros <-. contradiction.
           ++ simpl. split; [reflexivity|]. split; [lia|].
              rewrite load_store_other
                by (lia || destruct (nodes_ok_sep _ _ x prev Hok HxL HprevL (not_eq_sym Hpx)); lia).
              rewrite load_store_same by (lia || exact Hnxt).
              apply seg_store_other; [lia| |apply seg_store_other; [lia| |exact Hr']].
              ** intros y Hy. apply Hdx. apply in_or_app. right. exact Hy.
              ** intros y Hy. apply (nodes_ok_sep _ _ prev y Hok HprevL).
                 { apply in_or_app. right. right. exact Hy. }
                 intros <-. apply NoDup_remove_2 in Hnd as Hnd'.
                 rewrite <- app_assoc in Hnd. apply NoDup_app_remove_l in Hnd.
                 apply NoDup_cons_iff in Hnd as [Hn _]. apply Hn. right. exact Hy.
        -- intros _. simpl. apply load_store_same; [lia | split; [lia | reflexivity]].
        -- intros H. exfalso. apply H. left. reflexivity.
    + destruct (IH R' (P ++ [x]) x nxt s) as (s' & Hrun & Hfr & Hfl & Hin & Hnin).
      * apply seg_app. exists x. split; [exact Hp|]. simpl. split; [reflexivity|]. split; [lia|]. reflexivity.
      * exact Hr'.
      * right. exists P. reflexivity.
      * rewrite <- app_assoc. exact Hok.
      * simpl in Hlen. lia.
      * exists s'. split; [exact Hrun|]. split; [exact Hfr|].
        assert (Hrm : remove Z.eq_dec h (x :: R') = x :: remove Z.eq_dec h R').
        { simpl. destruct (Z.eq_dec h x); [congruence|reflexivity]. }
        rewrite Hrm. split; [|split].
        -- rewrite <- app_assoc in Hfl. exact Hfl.
        -- intros [E|E]; [congruence | exact (Hin E)].
        -- intros H. apply Hnin. intros E. apply H. right. exact E.
Qed.



(** X8: for a size of at least 64 bytes that fits in a size_t, the
    constructor tiles its region with a single free block whose header and
    footer carry the magic, the size and the free flag, with an empty link,
    and advances the platform break by the size rounded up to 16. *)
Theorem Arena_new_wf m brk N :
  64 <= N < W64 ->
  let '(m', ar, brk') := Arena_new m brk N in
  ar = mkArena brk N 0 brk /\ brk' = brk + round16 N /\
  wf_arena (mkAS m' ar stats0) [N] /\
  load m' (brk + HDR_MAGIC) 4 = MAGIC /\ load m' (brk + HDR_USER) 8 = 0 /\
  load m' (brk + HDR_FREE) 1 = 1 /\ load m' (brk + FB_NEXT) 8 = 0 /\
  load m' (brk + N - SIZEOF_FTR + FTR_MAGIC) 4 = MAGIC /\
  load m' (brk + N - SIZEOF_FTR + FTR_FREE) 1 = 1.
Proof. exact (Arena_new_layout m brk N). Qed.

(** X4: [coalesceForward] and [coalesceBackward] never change the
    statistics, [usedBytes_] or the region. *)
Theorem coalesce_keeps_frame blk :
  preserves same_frame (coalesceForward blk) /\ preserves same_frame (coalesceBackward blk).
Proof. split; [apply coalesceForward_frame | apply coalesceBackward_frame]. Qed.


(** ** Concrete instances *)

Lemma reclaim_pass_filters_witness :
  (forall a, In a [mkArena 4096 8192 0 4096; mkArena 12288 8192 64 12400] -> memory_ a <> 0) /\
  reclaim_pass [mkArena 4096 8192 0 4096; mkArena 12288 8192 64 12400] [] =
  ([mkArena 12288 8192 64 12400], [4096]).
Proof.
  assert (H : forall a, In a [mkArena 4096 8192 0 4096; mkArena 12288 8192 64 12400] ->
                        memory_ a <> 0) by (intros a [<-|[<-|[]]]; simpl; lia).
  split; [exact H|].
  rewrite (reclaim_pass_filters _ [] H). reflexivity.
Defined.

Definition mgr0 : Mgr := mkMgr [] [] false true.
Definition mgr1 : Mgr := snd (createArena zero_mem 4096 8192 mgr0).
Definition mgr2 : Mgr := snd (createArena zero_mem 12288 8192 mgr1).
Definition mgr3 : Mgr :=
  mkMgr [mkArena 4096 8192 0 4096; mkArena 12288 8192 64 12400] [] false true.
Definition mgr4 : Mgr := mkMgr [mkArena 12288 8192 64 12400] [4096] false true.

Lemma mgr_releases_each_region_once_witness :
  mgr_reach mgr0 mgr4 [4096; 12288] /\
  Permutation (released_ mgr4 ++ map memory_ (arenas_ mgr4)) [4096; 12288] /\
  Permutation (mgr_dtor mgr4) [4096; 12288].
Proof.
  assert (H : mgr_reach mgr0 mgr4 [4096; 12288]).
  { apply mreach_step with mgr3 [4096; 12288].
    - apply mreach_step with mgr2 [4096; 12288].
      + apply mreach_step with mgr1 [4096].
        * apply (mreach_step mgr0 mgr0 [] mgr1 ([] ++ [4096])).
          -- apply mreach_init.
          -- apply mstep_create. lia.
        * apply (mstep_create zero_mem 12288 8192 mgr1 [4096]). lia.
      + apply (mstep_use mgr2 [mkArena 4096 8192 0 4096; mkArena 12288 8192 64 12400]).
        vm_compute. reflexivity.
    - apply mstep_bg. vm_compute. reflexivity. }
  split; [exact H|].
  exact (mgr_releases_each_region_once mgr0 mgr4 _ eq_refl eq_refl H).
Defined.

Lemma Arena_allocate_result_witness :
  exists p s', Arena_allocate 264 (2 ^ 4) arena8k = Some (Some p, s') /\
    p mod 2 ^ 4 = 0 /\ currentUsedBytes (as_stats s') <= peakUsedBytes (as_stats s').
Proof.
  destruct (Arena_allocate 264 (2 ^ 4) arena8k) as [[[p|] s']|] eqn:E;
    [|vm_compute in E; discriminate | vm_compute in E; discriminate].
  exists p, s'. split; [reflexivity|].
  exact (Arena_allocate_result 264 4 arena8k p s' ltac:(lia) E).
Defined.

Lemma Arena_deallocate_rejected_witness :
  exists u s', Arena_deallocate 4128 arena8k = Some (u, s') /\
    load (as_mem arena8k) (4128 - SIZEOF_HDR + HDR_FREE) 1 <> 0 /\
    as_mem s' = as_mem arena8k /\ as_ar s' = as_ar arena8k /\
    as_stats s' = addFreeCall (as_stats arena8k).
Proof.
  destruct (Arena_deallocate 4128 arena8k) as [[u s']|] eqn:E;
    [|vm_compute in E; discriminate].
  assert (Hf : load (as_mem arena8k) (4128 - SIZEOF_HDR + HDR_FREE) 1 <> 0)
    by (vm_compute; discriminate).
  exists u, s'. split; [reflexivity|]. split; [exact Hf|].
  exact (proj2 (Arena_deallocate_rejected 4128 arena8k u s' E) ltac:(lia) (or_intror Hf)).
Defined.

Lemma Arena_new_wf_witness :
  64 <= 8192 < W64 /\
  let '(m', ar, brk') := Arena_new zero_mem 4096 8192 in
  ar = mkArena 4096 8192 0 4096 /\ brk' = 4096 + round16 8192 /\
  wf_arena (mkAS m' ar stats0) [8192] /\
  load m' (4096 + HDR_MAGIC) 4 = MAGIC /\ load m' (4096 + HDR_USER) 8 = 0 /\
  load m' (4096 + HDR_FREE) 1 = 1 /\ load m' (4096 + FB_NEXT) 8 = 0 /\
  load m' (4096 + 8192 - SIZEOF_FTR + FTR_MAGIC) 4 = MAGIC /\
  load m' (4096 + 8192 - SIZEOF_FTR + FTR_FREE) 1 = 1.
Proof.
  assert (H : 64 <= 8192 < W64) by (unfold W64; lia).
  split; [exact H | exact (Arena_new_wf zero_mem 4096 8192 H)].
Defined.


Lemma allocateSmall_chunk_witness :
  small_reach small_init small_s1 small_cs1 /\
  let p := fst (allocateSmall 40 small_s1) in
  p mod 16 = 0 /\
  40 <= SMALL_BIN_SIZE (findBin 40) /\
  (forall j, 0 <= j < findBin 40 -> SMALL_BIN_SIZE j < 40) /\
  In (p - SIZEOF_SMALLHDR, findBin 40) (alloc_ghost 40 small_s1 small_cs1) /\
  (forall h b, In (h, b) (alloc_ghost 40 small_s1 small_cs1) -> h <> p - SIZEOF_SMALLHDR ->
     p - SIZEOF_SMALLHDR + chunk_size (findBin 40) <= h \/
     h + chunk_size b <= p - SIZEOF_SMALLHDR).
Proof.
  assert (Hr : small_reach small_init small_s1 small_cs1).
  { unfold small_s1, small_cs1. apply reach_step with small_init [].
    - apply reach_init.
    - apply step_alloc. vm_compute. discriminate. }
  split; [exact Hr|].
  apply (allocateSmall_chunk small_init small_s1 small_cs1 40).
  - vm_compute. split; [reflexivity | discriminate].
  - reflexivity.
  - reflexivity.
  - exact Hr.
  - vm_compute. discriminate.
  - vm_compute. discriminate.
Defined.



(** ** Freeing and re-allocating a small block *)

Lemma list_set_twice l i x y : list_set (list_set l i x) i y = list_set l i y.
Proof.
  revert i. induction l as [|a l IH]; intros [|i]; simpl; [reflexivity..| |].
  - reflexivity.
  - rewrite IH. reflexivity.
Qed.

Lemma list_set_nth l i : list_set l i (nth i l 0) = l.
Proof.
  revert i. induction l as [|a l IH]; intros [|i]; simpl; [reflexivity..| |].
  - reflexivity.
  - rewrite IH. reflexivity.
Qed.

(** X12: freeing a small block and then allocating a size of the block's
    bin returns the same pointer, puts the bin heads back as they were and
    leaves the break alone; the statistics keep the free's subtraction, since
    the pop adds nothing back. *)
Theorem freeSmall_then_allocateSmall p n s :
  p <> 0 -> p - SIZEOF_SMALLHDR <> 0 -> length (ss_heads s) = 4%nat ->
  to_int32 (load (ss_mem s) (p - SIZEOF_SMALLHDR + SB_BIN) 8) = findBin n ->
  0 <= findBin n ->
  0 <= head_of (ss_heads s) (findBin n) < W64 ->
  let '(q, s') := allocateSmall n (freeSmall p s) in
  q = p /\ ss_heads s' = ss_heads s /\ ss_brk s' = ss_brk s /\
  ss_stats s' = subCurrent (addFreeCall (ss_stats s))
                           (SIZEOF_SMALLHDR + SMALL_BIN_SIZE (findBin n)).
Proof.
  intros Hp Hb0 Hlen Hbin Hn Hhd.
  assert (Hr : findBin n < SMALL_BIN_COUNT) by (destruct (findBin_range n); lia).
  unfold freeSmall. apply Z.eqb_neq in Hp. rewrite Hp. cbv zeta. rewrite Hbin.
  assert (E : (findBin n <? 0) || (findBin n >=? SMALL_BIN_COUNT) = false).
  { apply orb_false_iff. split; [apply Z.ltb_ge; lia|].
    rewrite Z.geb_leb. apply Z.leb_gt. exact Hr. }
  rewrite E.
  set (bin := findBin n) in *.
  assert (Hlt : (Z.to_nat bin < length (ss_heads s))%nat) by (unfold SMALL_BIN_COUNT in Hr; lia).
  rewrite allocateSmall_pop; fold bin; cbn [ss_heads ss_mem ss_brk ss_stats];
    [| exact Hn | rewrite head_of_set by lia; rewrite Z.eqb_refl; exact Hb0].
  rewrite head_of_set by lia. rewrite Z.eqb_refl.
  rewrite load_store_same by (lia || (rewrite <- W64_pow; exact Hhd)).
  split; [unfold SIZEOF_SMALLHDR; lia|]. split; [|split; reflexivity].
  unfold set_head, head_of. rewrite list_set_twice. apply list_set_nth.
Qed.

Lemma freeSmall_then_allocateSmall_witness :
  to_int32 (load (ss_mem small_s1) (4112 - SIZEOF_SMALLHDR + SB_BIN) 8) = findBin 40 /\
  let '(q, s') := allocateSmall 40 (freeSmall 4112 small_s1) in
  q = 4112 /\ ss_heads s' = ss_heads small_s1 /\ ss_brk s' = ss_brk small_s1 /\
  ss_stats s' = subCurrent (addFreeCall (ss_stats small_s1))
                           (SIZEOF_SMALLHDR + SMALL_BIN_SIZE (findBin 40)).
Proof.
  assert (Hb : to_int32 (load (ss_mem small_s1) (4112 - SIZEOF_SMALLHDR + SB_BIN) 8) = findBin 40)
    by (vm_compute; reflexivity).
  split; [exact Hb|].
  apply (freeSmall_then_allocateSmall 4112 40 small_s1);
    [lia | unfold SIZEOF_SMALLHDR; lia | vm_compute; reflexivity | exact Hb
    | vm_compute; discriminate | split; [vm_compute; discriminate | vm_compute; reflexivity]].
Defined.
